(** * DataSync ingestion: a shallow embedding of the ingestion pipeline

    The development follows the three source files of the ingestion package:

    - [db.ts]     the progress store and the bulk loader (module [Db]);
    - [api.ts]    the throttled, retrying page fetcher (module [Api]);
    - [index.ts]  the fetcher / writer pipeline (module [Pipeline]).

    Asynchronous code is embedded with explicit state passing.  Everything
    the program does not control (the PostgreSQL server deciding whether a
    statement fails, the remote API answering a request, the time a timer or
    a request takes) is an explicit input of the embedded functions. *)

From Stdlib Require Import ZArith Lia List Ascii String Bool.
From stdpp Require Import gmap strings list fin_maps pretty.
Import ListNotations.

Local Open Scope Z_scope.

#[local] Set Warnings "-clear-no-such-hyp".

(** ** JavaScript helpers shared by the three files *)

(** [a ?? b] on values that are either nullish ([None]) or present. *)
Definition nullish {A} (a b : option A) : option A :=
  match a with
  | Some x => Some x
  | None => b
  end.

Infix "??" := nullish (at level 61, left associativity).

(** [a ?? d] with a default that is always present. *)
Definition nullish_def {A} (a : option A) (d : A) : A :=
  match a with
  | Some x => x
  | None => d
  end.

(** Truthiness of an optional string: [undefined], [null] and the empty
    string are falsy. *)
Definition truthy (c : option string) : bool :=
  match c with
  | Some s => negb (String.eqb s "")
  | None => false
  end.

(** [Array.prototype.slice(i, j)] for [0 <= i <= j]. *)
Definition slice {A} (i j : nat) (l : list A) : list A :=
  take (j - i)%nat (drop i l).

(** [P] holds of every two consecutive elements of [l]. *)
Definition adjacent {A} (P : A -> A -> Prop) (l : list A) : Prop :=
  forall i x y, l !! i = Some x -> l !! S i = Some y -> P x y.

(** ** db.ts *)

Module Db.

Definition TAB : ascii := "009"%char.
Definition LF : ascii := "010"%char.
Definition CR : ascii := "013"%char.
Definition BSL : ascii := "092"%char.

(** [val.replace(/c/g, rep)] for a one-character pattern. *)
Fixpoint replaceAll (c : ascii) (rep : string) (val : string) : string :=
  match val with
  | EmptyString => EmptyString
  | String a rest =>
      if Ascii.eqb a c then rep +:+ replaceAll c rep rest
      else String a (replaceAll c rep rest)
  end.

Definition esc (c : ascii) : string := String BSL (String c EmptyString).

(** [escapeForCopy]: four successive global replacements, backslash first. *)
Definition escapeForCopy (val : string) : string :=
  replaceAll TAB (esc "t")
    (replaceAll CR (esc "r")
      (replaceAll LF (esc "n")
        (replaceAll BSL (esc BSL) val))).

(** What the four passes of [escapeForCopy] make of one character. *)
Definition escapeChar (a : ascii) : string :=
  if Ascii.eqb a BSL then esc BSL
  else if Ascii.eqb a LF then esc "n"
  else if Ascii.eqb a CR then esc "r"
  else if Ascii.eqb a TAB then esc "t"
  else String a EmptyString.

(** Text that the [COPY] reader takes as it stands. *)
Fixpoint plain (s : string) : bool :=
  match s with
  | EmptyString => true
  | String a rest =>
      negb (Ascii.eqb a BSL) && negb (Ascii.eqb a TAB)
        && negb (Ascii.eqb a LF) && plain rest
  end.

(** A timestamp-like field of an event as [normalizeTimestamp] sees it: a
    falsy value, a truthy value that [new Date] cannot parse (or that makes
    it throw), or a value denoting an instant (milliseconds since epoch). *)
Inductive TsValue :=
| TsFalsy
| TsInvalid
| TsInstant (ms : Z).

(** An event is an arbitrary JSON object.  The loader reads nine of its
    properties; each is nullish ([None]) or present, text properties being
    held as [String(value)].  [ev_json] is [JSON.stringify(e)]. *)
Record Event := {
  ev_id : option string;
  ev_event_name : option string;
  ev_type : option string;
  ev_name : option string;
  ev_user_id : option string;
  ev_userId : option string;
  ev_timestamp : option TsValue;
  ev_created_at : option TsValue;
  ev_createdAt : option TsValue;
  ev_json : string
}.

(** A row of the [events] table; [id] is the primary key.  The timestamp and
    the raw payload are kept as the text handed to the server. *)
Record Row := {
  r_id : string;
  r_event_name : string;
  r_user_id : string;
  r_timestamp : string;
  r_raw : string
}.

(** The singleton row of [ingestion_state]. *)
Record StateRow := {
  next_cursor : option string;
  total_processed : Z
}.

(** Statements sent to the server, in the order they were sent. *)
Inductive Stmt :=
| QInitDb
| QSelectTotal
| QSelectCursor
| QUpdateState (cursor : option string) (count : Z)
| QConnect
| QBegin
| QCreateStaging
| QCopy (data : string)
| QMerge
| QCommit
| QRollback
| QInsertChunk (rows : list Row)
| QCount.

Definition isCheckpointWrite (q : Stmt) : bool :=
  match q with
  | QUpdateState _ _ => true
  | _ => false
  end.

(** The transaction open on the loader's client connection: its private view
    of [events] and the transaction-scoped staging table
    ([CREATE TEMP TABLE ... ON COMMIT DROP]). *)
Record Txn := {
  tx_view : gmap string Row;
  tx_staging : option (list Row)
}.

(** The database: the committed [events] table, the checkpoint row, the
    transaction in progress (if any) and the statement log. *)
Record Database := {
  db_events : gmap string Row;
  db_state : option StateRow;
  db_txn : option Txn;
  db_log : list Stmt
}.

Definition log (q : Stmt) (db : Database) : Database :=
  {| db_events := db_events db; db_state := db_state db;
     db_txn := db_txn db; db_log := db_log db ++ [q] |}.

Definition set_events (t : gmap string Row) (db : Database) : Database :=
  {| db_events := t; db_state := db_state db;
     db_txn := db_txn db; db_log := db_log db |}.

Definition set_state (s : option StateRow) (db : Database) : Database :=
  {| db_events := db_events db; db_state := s;
     db_txn := db_txn db; db_log := db_log db |}.

Definition set_txn (x : option Txn) (db : Database) : Database :=
  {| db_events := db_events db; db_state := db_state db;
     db_txn := x; db_log := db_log db |}.

(** *** The server side of the statements the loader issues *)

(** [INSERT ... ON CONFLICT (id) DO NOTHING], one proposed row. *)
Definition insert_row (t : gmap string Row) (r : Row) : gmap string Row :=
  match t !! r_id r with
  | Some _ => t
  | None => <[r_id r := r]> t
  end.

(** [INSERT ... ON CONFLICT (id) DO NOTHING] for the proposed rows in order. *)
Definition insert_do_nothing (rows : list Row) (t : gmap string Row)
  : gmap string Row :=
  foldl insert_row t rows.

(** De-escaping of one backslash sequence of the [COPY] text format. *)
Definition copy_unescape (c : ascii) : ascii :=
  if Ascii.eqb c "n" then LF
  else if Ascii.eqb c "r" then CR
  else if Ascii.eqb c "t" then TAB
  else if Ascii.eqb c "b" then "008"%char
  else if Ascii.eqb c "f" then "012"%char
  else if Ascii.eqb c "v" then "011"%char
  else c.

(** The server's reader for [COPY ... FROM STDIN WITH (FORMAT text)]: one
    pass over the stream; an unescaped tab ends a field, an unescaped newline
    ends a row, a backslash takes the next character through
    [copy_unescape].  [cur] is the field and [fields] the row being read.
    The stream must end after a newline.  (The NULL marker and the octal and
    hexadecimal sequences are not modelled; [escapeForCopy] emits none.) *)
Fixpoint copy_read (data : string) (cur : string) (fields : list string)
    (rows : list (list string)) : option (list (list string)) :=
  match data with
  | EmptyString =>
      match cur, fields with
      | EmptyString, [] => Some rows
      | _, _ => None
      end
  | String c rest =>
      if Ascii.eqb c BSL then
        match rest with
        | EmptyString => None
        | String d rest' =>
            copy_read rest' (cur +:+ String (copy_unescape d) EmptyString)
              fields rows
        end
      else if Ascii.eqb c TAB then
        copy_read rest EmptyString (fields ++ [cur]) rows
      else if Ascii.eqb c LF then
        copy_read rest EmptyString [] (rows ++ [fields ++ [cur]])
      else
        copy_read rest (cur +:+ String c EmptyString) fields rows
  end.

(** A line of the stream fits [events_staging] when it has five columns. *)
Definition staging_row (fields : list string) : option Row :=
  match fields with
  | [i; n; u; t; r] =>
      Some {| r_id := i; r_event_name := n; r_user_id := u;
              r_timestamp := t; r_raw := r |}
  | _ => None
  end.

Definition copy_rows (data : string) : option (list Row) :=
  match copy_read data EmptyString [] [] with
  | Some lines => mapM staging_row lines
  | None => None
  end.

(** *** What the environment decides for one call of [bulkInsertEvents] *)

Inductive Stage := StBegin | StCreateStaging | StCopy | StMerge | StCommit.

#[global] Instance Stage_eq_dec : EqDecision Stage.
Proof. solve_decision. Defined.

(** [f_connect]: [pool.connect()] rejects.  [f_primary = Some (st, k)]: the
    statement of stage [st] fails, after the server has handled [k] rows of
    it.  [f_fallback = Some j]: the query of chunk number [j] (from 0) of
    the fallback path fails. *)
Record Faults := {
  f_connect : bool;
  f_primary : option (Stage * nat);
  f_fallback : option nat
}.

Definition no_faults : Faults :=
  {| f_connect := false; f_primary := None; f_fallback := None |}.

(** The only fault is in stage [st] of the primary path, after [k] rows. *)
Definition primary_fault (st : Stage) (k : nat) : Faults :=
  {| f_connect := false; f_primary := Some (st, k); f_fallback := None |}.

Definition stage_fails (f : Faults) (st : Stage) : option nat :=
  match f_primary f with
  | Some (st', k) => if decide (st' = st) then Some k else None
  | None => None
  end.

(** A call either returns a value or throws (the promise rejects). *)
Inductive Result (A : Type) :=
| Returned (a : A)
| Threw.
Arguments Returned {A} a.
Arguments Threw {A}.

(** Statements of a transaction: [inl] when the statement succeeded, [inr]
    when it failed, with the database as the failure left it. *)
Definition Step := Database -> Database + Database.

Definition and_then (r : Database + Database) (k : Step)
  : Database + Database :=
  match r with
  | inl db => k db
  | inr db => inr db
  end.

Infix ">>>" := and_then (at level 62, left associativity).

Definition with_txn (g : Txn -> Txn) (db : Database) : Database :=
  match db_txn db with
  | Some tx => set_txn (Some (g tx)) db
  | None => db
  end.

Definition stage_rows (rows : list Row) (tx : Txn) : Txn :=
  {| tx_view := tx_view tx;
     tx_staging := Some (nullish_def (tx_staging tx) [] ++ rows) |}.

(** The merge insert, stopped after [k] rows when [k] is given. *)
Definition merge_rows (k : option nat) (tx : Txn) : Txn :=
  let staged := nullish_def (tx_staging tx) [] in
  let rows := match k with Some k => take k staged | None => staged end in
  {| tx_view := insert_do_nothing rows (tx_view tx);
     tx_staging := tx_staging tx |}.

Definition exec_begin (f : Faults) : Step := fun db =>
  let db := log QBegin db in
  match stage_fails f StBegin with
  | Some _ => inr db
  | None =>
      inl (set_txn (Some {| tx_view := db_events db; tx_staging := None |}) db)
  end.

Definition exec_create_staging (f : Faults) : Step := fun db =>
  let db := log QCreateStaging db in
  match stage_fails f StCreateStaging with
  | Some _ => inr db
  | None =>
      inl (with_txn (fun tx =>
             {| tx_view := tx_view tx; tx_staging := Some [] |}) db)
  end.

Definition exec_copy (f : Faults) (data : string) : Step := fun db =>
  let db := log (QCopy data) db in
  match stage_fails f StCopy, copy_rows data with
  | Some k, Some rows => inr (with_txn (stage_rows (take k rows)) db)
  | Some k, None => inr db
  | None, Some rows => inl (with_txn (stage_rows rows) db)
  | None, None => inr db
  end.

Definition exec_merge (f : Faults) : Step := fun db =>
  let db := log QMerge db in
  match stage_fails f StMerge with
  | Some k => inr (with_txn (merge_rows (Some k)) db)
  | None => inl (with_txn (merge_rows None) db)
  end.

Definition exec_commit (f : Faults) : Step := fun db =>
  let db := log QCommit db in
  match stage_fails f StCommit with
  | Some _ => inr db
  | None =>
      match db_txn db with
      | Some tx => inl (set_txn None (set_events (tx_view tx) db))
      | None => inl db
      end
  end.

(** [ROLLBACK] discards the view and the staging table of the transaction.
    The loader ignores a failure of the statement itself; the server drops an
    uncommitted transaction in that case as well. *)
Definition exec_rollback (db : Database) : Database :=
  set_txn None (log QRollback db).

(** [INSERT ... VALUES ... ON CONFLICT (id) DO NOTHING] sent through the
    pool: its own transaction, committed at once. *)
Definition exec_insert_chunk (rows : list Row) (db : Database) : Database :=
  set_events (insert_do_nothing rows (db_events db)) db.

(** *** The progress store *)

Definition initial_state : StateRow :=
  {| next_cursor := None; total_processed := 0 |}.

(** [initDb]: the tables are created if absent (an absent table and an empty
    one are the same here) and the checkpoint row is inserted if absent. *)
Definition initDb (fails : bool) (db : Database) : Result unit * Database :=
  let db := log QInitDb db in
  if fails then (Threw, db)
  else (Returned tt,
        set_state (Some (nullish_def (db_state db) initial_state)) db).

Definition getCursor (fails : bool) (db : Database)
  : Result (option string) * Database :=
  let db := log QSelectCursor db in
  if fails then (Threw, db)
  else (Returned (match db_state db with
                  | Some s => next_cursor s
                  | None => None
                  end), db).

Definition getTotalProcessed (fails : bool) (db : Database)
  : Result Z * Database :=
  let db := log QSelectTotal db in
  if fails then (Threw, db)
  else (Returned (match db_state db with
                  | Some s => total_processed s
                  | None => 0
                  end), db).

(** The count of the checkpoint, as [getTotalProcessed] reads it. *)
Definition checkpointCount (db : Database) : Z :=
  match db_state db with
  | Some s => total_processed s
  | None => 0
  end.

(** [saveProgress]: one [UPDATE ... WHERE id = 1]. *)
Definition saveProgress (cursor : option string) (count : Z) (fails : bool)
    (db : Database) : Result unit * Database :=
  let db := log (QUpdateState cursor count) db in
  if fails then (Threw, db)
  else (Returned tt,
        set_state
          (match db_state db with
           | Some s => Some {| next_cursor := cursor;
                               total_processed := total_processed s + count |}
           | None => None
           end) db).

(** *** The bulk loader *)

Section Loader.

(** [Date.prototype.toISOString] of the runtime, on milliseconds since the
    epoch. *)
Variable toISOString : Z -> string.

Definition normalizeTimestamp (ts : option TsValue) : string :=
  match ts with
  | None | Some TsFalsy => toISOString 0
  | Some TsInvalid => toISOString 0
  | Some (TsInstant ms) => toISOString ms
  end.

Definition idOf (e : Event) : string := nullish_def (ev_id e) "".

Definition eventNameOf (e : Event) : string :=
  nullish_def (ev_event_name e ?? ev_type e ?? ev_name e) "".

Definition userIdOf (e : Event) : string :=
  nullish_def (ev_user_id e ?? ev_userId e) "".

Definition tsOf (e : Event) : string :=
  normalizeTimestamp (ev_timestamp e ?? ev_created_at e ?? ev_createdAt e).

Definition tab : string := String TAB EmptyString.
Definition newline : string := String LF EmptyString.

(** One element of [rows] in [bulkInsertEvents]. *)
Definition copyLine (e : Event) : string :=
  escapeForCopy (idOf e) +:+ tab +:+
  escapeForCopy (eventNameOf e) +:+ tab +:+
  escapeForCopy (userIdOf e) +:+ tab +:+
  tsOf e +:+ tab +:+
  escapeForCopy (ev_json e).

(** [rows.join("\n") + "\n"]. *)
Definition copyData (events : list Event) : string :=
  String.concat newline (map copyLine events) +:+ newline.

(** The five values pushed for one event in [fallbackInsert]; the
    placeholders [($p,...,$p+4)] group them into one proposed row. *)
Definition valuesOf (e : Event) : Row :=
  {| r_id := idOf e;
     r_event_name := eventNameOf e;
     r_user_id := userIdOf e;
     r_timestamp := tsOf e;
     r_raw := ev_json e |}.

(** The same five values as the columns of one line of the stream. *)
Definition fieldsOf (e : Event) : list string :=
  [idOf e; eventNameOf e; userIdOf e; tsOf e; ev_json e].

Definition CHUNK : nat := 500.

(** The loop of [fallbackInsert], [i] being its index variable.  [None] only
    when [fuel] runs out before the loop ends. *)
Fixpoint fallbackLoop (fuel : nat) (events : list Event) (f : Faults)
    (i inserted : nat) (db : Database) : option (Result nat * Database) :=
  match fuel with
  | O => None
  | S fuel' =>
      if (i <? length events)%nat then
        let chunk := slice i (i + CHUNK) events in
        let values := map valuesOf chunk in
        let db := log (QInsertChunk values) db in
        if decide (f_fallback f = Some (i / CHUNK)%nat) then Some (Threw, db)
        else
          fallbackLoop fuel' events f (i + CHUNK)%nat
            (inserted + length chunk)%nat (exec_insert_chunk values db)
      else Some (Returned inserted, db)
  end.

Definition fallbackInsert (events : list Event) (f : Faults) (db : Database)
  : option (Result nat * Database) :=
  fallbackLoop (S (length events)) events f 0 0 db.

(** The [try] block of [bulkInsertEvents], from [BEGIN] to [COMMIT]. *)
Definition primaryPath (events : list Event) (f : Faults) : Step := fun db =>
  exec_begin f db
    >>> exec_create_staging f
    >>> exec_copy f (copyData events)
    >>> exec_merge f
    >>> exec_commit f.

Definition bulkInsertEvents (events : list Event) (f : Faults)
    (db : Database) : option (Result nat * Database) :=
  if (length events =? 0)%nat then Some (Returned 0%nat, db)
  else
    let db := log QConnect db in
    if f_connect f then Some (Threw, db)
    else
      match primaryPath events f db with
      | inl db => Some (Returned (length events), db)
      | inr db => fallbackInsert events f (exec_rollback db)
      end.

End Loader.

End Db.

(** ** api.ts *)

Module Api.
Import Db.

(** The [pagination] sub-object of a response body. *)
Record Pagination := {
  pg_nextCursor : option string;
  pg_next_cursor : option string;
  pg_hasMore : option bool;
  pg_has_more : option bool
}.

(** A response body, as far as [fetchEvents] reads it; a property is [None]
    when it is absent or [null]. *)
Record Body := {
  b_data : option (list Event);
  b_events : option (list Event);
  b_nextCursor : option string;
  b_next_cursor : option string;
  b_pagination : option Pagination;
  b_hasMore : option bool;
  b_has_more : option bool
}.

(** What one request comes to: a 2xx response with its body, a response with
    another status (axios rejects), or no response at all (network failure
    or timeout; [err.response] is undefined).  The [retry-after] header,
    when present, is a number of seconds, whole and not negative; a value
    that [Number] turns into [NaN] is not modelled. *)
Inductive Response :=
| Success (body : Body)
| Failure (status : Z) (retry_after : option N)
| NoResponse.

(** One attempt as the environment plays it: the outcome of the request, the
    milliseconds from its start until it settles, and by how many
    milliseconds the timers awaited before and after it fire late. *)
Record Attempt := {
  a_response : Response;
  a_latency : N;
  a_late_before : N;
  a_late_after : N
}.

Record EventsResponse := {
  data : list Event;
  hasMore : bool;
  nextCursor : option string
}.

(** The two errors [fetchEvents] throws. *)
Inductive JsError :=
| BadCursor (cursor : option string)
| RequestFailed (status : Z).

(** [String(cursor)] inside a template literal. *)
Definition showCursor (cursor : option string) : string :=
  match cursor with
  | Some s => s
  | None => "undefined"
  end.

Definition message (e : JsError) : string :=
  match e with
  | BadCursor cursor => "BAD_CURSOR:" +:+ showCursor cursor
  | RequestFailed status =>
      "Request failed with status code " +:+ pretty status
  end.

(** A request as it went out, for the record. *)
Record Request := {
  rq_cursor : option string;
  rq_limit : Z;
  rq_start : Z;
  rq_end : Z;
  rq_response : Response
}.

Inductive SleepKind := Throttle | Cooldown | Backoff.

(** The module state of [api.ts] together with the clock ([Date.now()], in
    milliseconds) and the record of requests sent and timers awaited. *)
Record State := {
  now : Z;
  lastRequestTime : Z;
  requests : list Request;
  sleeps : list (SleepKind * Z)
}.

Definition initial (t0 : Z) : State :=
  {| now := t0; lastRequestTime := 0; requests := []; sleeps := [] |}.

Definition set_lastRequestTime (t : Z) (st : State) : State :=
  {| now := now st; lastRequestTime := t;
     requests := requests st; sleeps := sleeps st |}.

(** Time passes. *)
Definition elapse (ms : Z) (st : State) : State :=
  {| now := now st + ms; lastRequestTime := lastRequestTime st;
     requests := requests st; sleeps := sleeps st |}.

(** [await sleep(ms)]: the timer fires after [ms] milliseconds (at once for
    a negative [ms]), [late] milliseconds late. *)
Definition sleep (kind : SleepKind) (ms : Z) (late : N) (st : State) : State :=
  {| now := now st + Z.max 0 ms + Z.of_N late;
     lastRequestTime := lastRequestTime st;
     requests := requests st;
     sleeps := sleeps st ++ [(kind, ms)] |}.

Definition record (r : Request) (st : State) : State :=
  {| now := now st; lastRequestTime := lastRequestTime st;
     requests := requests st ++ [r]; sleeps := sleeps st |}.

(** [if (cursor) params.cursor = cursor]. *)
Definition cursorParam (cursor : option string) : option string :=
  if truthy cursor then cursor else None.

Definition parseBody (body : Body) : EventsResponse :=
  let data := nullish_def (b_data body ?? b_events body) [] in
  let nextCursor :=
    b_nextCursor body ?? b_next_cursor body
      ?? (b_pagination body ≫= pg_nextCursor)
      ?? (b_pagination body ≫= pg_next_cursor) in
  let hasMore :=
    nullish_def
      (b_hasMore body ?? b_has_more body
         ?? (b_pagination body ≫= pg_hasMore)
         ?? (b_pagination body ≫= pg_has_more))
      (bool_decide (is_Some nextCursor)) in
  {| data := data; hasMore := hasMore; nextCursor := nextCursor |}.


(** [Number(err.response.headers["retry-after"] ?? 10)]. *)
Definition retryAfterOf (retry_after : option N) : Z :=
  nullish_def (Z.of_N <$> retry_after) 10.

(** [Math.min(1000 * 2 ** retries, 16000)]. *)
Definition backoffWait (retries : Z) : Z :=
  Z.min (1000 * 2 ^ retries) 16000.

(** How a call of [fetchEvents] stands when the script of attempts is used
    up: it has returned, it has thrown, or it still waits for the remote. *)
Inductive Outcome :=
| Resolved (r : EventsResponse)
| Rejected (e : JsError)
| Pending.

(** The failures the loop of [fetchEvents] answers with a backoff and another
    attempt (504 or no response), and those it answers with another attempt
    at all (these and 429). *)
Definition transient (r : Response) : bool :=
  match r with
  | Failure status _ => negb (status =? 429) && negb (status =? 400)
                        && (status =? 504)
  | NoResponse => true
  | Success _ => false
  end.

Definition retryable (r : Response) : bool :=
  match r with
  | Failure status _ => (status =? 429) || transient r
  | NoResponse => true
  | Success _ => false
  end.

(** How many attempts of a stretch of the script are answered with a
    backoff. *)
Definition backoffCount (pre : list Attempt) : nat :=
  length (List.filter (fun a => transient (a_response a)) pre).

(** The waits of the backoff timers awaited so far, oldest first. *)
Definition backoffs (st : State) : list Z :=
  omap (fun s => match fst s with Backoff => Some (snd s) | _ => None end)
    (sleeps st).



(** After a 400 the next request is the initial one, without a cursor, and
    starts no sooner than [pause] milliseconds later. *)
Definition restarted (pause : Z) (r1 r2 : Request) : Prop :=
  forall retry_after,
    rq_response r1 = Failure 400 retry_after ->
    rq_cursor r2 = None /\ rq_end r1 + pause <= rq_start r2.




(** At the head of the loop of [fetchEvents cursor]: if the latest request
    was answered 400, this call sends no cursor and the pause is over. *)
Definition restart_ok (pause : Z) (cursor : option string) (st : State)
  : Prop :=
  adjacent (restarted pause) (requests st)
  /\ forall r retry_after,
       last (requests st) = Some r ->
       rq_response r = Failure 400 retry_after ->
       cursorParam cursor = None /\ rq_end r + pause <= now st.

(** A request has just settled: it is the latest on record, the clock
    stands at its end, and it asked for [cursor]. *)
Definition justSettled (P : Request -> Request -> Prop)
    (cursor : option string) (a : Attempt) (st : State) : Prop :=
  adjacent P (requests st)
  /\ exists r, last (requests st) = Some r
       /\ rq_response r = a_response a
       /\ rq_end r = now st
       /\ rq_cursor r = cursorParam cursor.

(** The first state is the second one some time on. *)
Definition later (st st' : State) : Prop :=
  requests st' = requests st
  /\ lastRequestTime st' = lastRequestTime st
  /\ sleeps st' = sleeps st
  /\ now st <= now st'.

(** The outcome of [fetchEvents cursor] when the response [r] ends its
    loop. *)
Definition settles (cursor : option string) (r : Response) (o : Outcome)
  : Prop :=
  match r with
  | Success body => o = Resolved (parseBody body)
  | Failure status _ =>
      (status = 400 /\ o = Rejected (BadCursor cursor))
      \/ (status <> 429 /\ status <> 400 /\ status <> 504
          /\ o = Rejected (RequestFailed status))
  | NoResponse => False
  end.

Section Fetch.

(** [Number(process.env.MIN_DELAY_MS ?? 500)]. *)
Variable MIN_DELAY_MS : Z.

Definition throttledRequest (cursor : option string) (limit : Z)
    (a : Attempt) (st : State) : Response * State :=
  let gap := now st - lastRequestTime st in
  let st :=
    if gap <? MIN_DELAY_MS
    then sleep Throttle (MIN_DELAY_MS - gap) (a_late_before a) st
    else st in
  let st := set_lastRequestTime (now st) st in
  let start := now st in
  let st := elapse (Z.of_N (a_latency a)) st in
  (a_response a,
   record {| rq_cursor := cursorParam cursor; rq_limit := limit;
             rq_start := start; rq_end := now st;
             rq_response := a_response a |} st).

(** The state in which [throttledRequest] sends its request, the request it
    sends, and the state in which it returns. *)
Definition atStart (a : Attempt) (st : State) : State :=
  let gap := now st - lastRequestTime st in
  let st :=
    if gap <? MIN_DELAY_MS
    then sleep Throttle (MIN_DELAY_MS - gap) (a_late_before a) st
    else st in
  set_lastRequestTime (now st) st.

Definition requestOf (cursor : option string) (limit : Z) (a : Attempt)
    (st : State) : Request :=
  {| rq_cursor := cursorParam cursor; rq_limit := limit;
     rq_start := now (atStart a st);
     rq_end := now (atStart a st) + Z.of_N (a_latency a);
     rq_response := a_response a |}.

Definition sent (cursor : option string) (limit : Z) (a : Attempt)
    (st : State) : State :=
  snd (throttledRequest cursor limit a st).

(** The state after the handler of a 429, and after the handler of a 504 or
    of a missing response. *)
Definition afterCooldown (retry_after : option N) (a : Attempt) (st : State)
  : State :=
  let retryAfter := retryAfterOf retry_after in
  let st := sleep Cooldown (retryAfter * 1000) (a_late_after a) st in
  set_lastRequestTime (now st + retryAfter * 1000) st.

Definition afterBackoff (retries : Z) (a : Attempt) (st : State) : State :=
  sleep Backoff (backoffWait retries) (a_late_after a) st.

(** The [while (true)] loop of [fetchEvents]; each iteration takes the next
    attempt of the script. *)
Fixpoint fetchLoop (cursor : option string) (limit : Z) (retries : Z)
    (script : list Attempt) (st : State)
  : Outcome * State * list Attempt :=
  match script with
  | [] => (Pending, st, [])
  | a :: script' =>
      let '(res, st) := throttledRequest cursor limit a st in
      match res with
      | Success body => (Resolved (parseBody body), st, script')
      | Failure status retry_after =>
          if status =? 429 then
            let retryAfter := retryAfterOf retry_after in
            let st := sleep Cooldown (retryAfter * 1000) (a_late_after a) st in
            let st := set_lastRequestTime (now st + retryAfter * 1000) st in
            fetchLoop cursor limit retries script' st
          else if status =? 400 then
            (Rejected (BadCursor cursor), st, script')
          else if status =? 504 then
            let wait := backoffWait retries in
            let st := sleep Backoff wait (a_late_after a) st in
            fetchLoop cursor limit (retries + 1) script' st
          else (Rejected (RequestFailed status), st, script')
      | NoResponse =>
          let wait := backoffWait retries in
          let st := sleep Backoff wait (a_late_after a) st in
          fetchLoop cursor limit (retries + 1) script' st
      end
  end.

Definition fetchEvents (cursor : option string) (limit : Z)
    (script : list Attempt) (st : State) : Outcome * State * list Attempt :=
  fetchLoop cursor limit 0 script st.

End Fetch.

End Api.

(** ** index.ts *)

Module Pipeline.
Import Db Api.

(** An element of [writeQueue]. *)
Record Batch := {
  events : list Event;
  cursor : option string
}.

(** Where the [fetcher] coroutine stands: at the top of its loop, awaiting
    [fetchEvents(cursor)], or returned. *)
Inductive FetcherAt :=
| FTop
| FAwaitFetch (cursor : option string)
| FDone.

(** Where the [writer] coroutine stands: at the top of its loop, awaiting
    [bulkInsertEvents(batch.events)], or returned. *)
Inductive WriterAt :=
| WTop
| WAwaitInsert (batch : Batch)
| WDone.

(** The variables of [runIngestion] that the two coroutines share, the two
    coroutines, and the world around them: the module state of [api.ts],
    the attempts the remote has yet to play, the database. *)
Record State := {
  fetchQueue : list (option string);
  writeQueue : list Batch;
  allFetched : bool;
  lastCursor : option string;
  total : Z;
  fetcherAt : FetcherAt;
  writerAt : WriterAt;
  api : Api.State;
  remote : list Attempt;
  db : Database
}.

(** What the scheduler and the environment do next: resume the fetcher,
    resume the writer (with the faults of the database calls it makes in
    that stretch), or let time pass. *)
Inductive Action :=
| RunFetcher
| RunWriter (f : Faults) (save_fails : bool)
| Tick (ms : N).

Section Run.

Variable toISOString : Z -> string.
Variable MIN_DELAY_MS : Z.

(** [Number(process.env.PAGE_SIZE ?? 1000)]. *)
Variable PAGE_SIZE : Z.

(** The coroutine [fetcher], resumed where it stands and run to its next
    [await] (or to its return). *)
Definition fetcher (st : State) : State :=
  match fetcherAt st with
  | FDone => st
  | FTop =>
      match fetchQueue st with
      | [] =>
          if allFetched st then
            {| fetchQueue := []; writeQueue := writeQueue st;
               allFetched := allFetched st; lastCursor := lastCursor st;
               total := total st; fetcherAt := FDone;
               writerAt := writerAt st; api := api st; remote := remote st;
               db := db st |}
          else
            {| fetchQueue := []; writeQueue := writeQueue st;
               allFetched := allFetched st; lastCursor := lastCursor st;
               total := total st; fetcherAt := FTop;
               writerAt := writerAt st; api := elapse 10 (api st);
               remote := remote st; db := db st |}
      | cursor :: rest =>
          {| fetchQueue := rest; writeQueue := writeQueue st;
             allFetched := allFetched st; lastCursor := lastCursor st;
             total := total st; fetcherAt := FAwaitFetch cursor;
             writerAt := writerAt st; api := api st; remote := remote st;
             db := db st |}
      end
  | FAwaitFetch cursor =>
      let '(outcome, api', remote') :=
        fetchEvents MIN_DELAY_MS cursor PAGE_SIZE (remote st) (api st) in
      match outcome with
      | Pending =>
          {| fetchQueue := fetchQueue st; writeQueue := writeQueue st;
             allFetched := allFetched st; lastCursor := lastCursor st;
             total := total st; fetcherAt := FAwaitFetch cursor;
             writerAt := writerAt st; api := api'; remote := remote';
             db := db st |}
      | Resolved res =>
          let writeQueue' :=
            if (0 <? length (data res))%nat
            then writeQueue st
                   ++ [{| events := data res; cursor := nextCursor res |}]
            else writeQueue st in
          if hasMore res && truthy (nextCursor res) then
            {| fetchQueue := fetchQueue st ++ [nextCursor res];
               writeQueue := writeQueue';
               allFetched := allFetched st; lastCursor := nextCursor res;
               total := total st; fetcherAt := FTop;
               writerAt := writerAt st; api := api'; remote := remote';
               db := db st |}
          else
            {| fetchQueue := fetchQueue st; writeQueue := writeQueue';
               allFetched := true; lastCursor := lastCursor st;
               total := total st; fetcherAt := FDone;
               writerAt := writerAt st; api := api'; remote := remote';
               db := db st |}
      | Rejected err =>
          if String.prefix "BAD_CURSOR" (message err) then
            {| fetchQueue := fetchQueue st ++ [None];
               writeQueue := writeQueue st;
               allFetched := allFetched st; lastCursor := None;
               total := total st; fetcherAt := FTop;
               writerAt := writerAt st; api := elapse 5000 api';
               remote := remote'; db := db st |}
          else
            {| fetchQueue :=
                 match cursor with
                 | Some _ => fetchQueue st ++ [cursor]
                 | None => fetchQueue st
                 end;
               writeQueue := writeQueue st;
               allFetched := allFetched st; lastCursor := lastCursor st;
               total := total st; fetcherAt := FTop;
               writerAt := writerAt st; api := elapse 3000 api';
               remote := remote'; db := db st |}
      end
  end.

(** The coroutine [writer], resumed where it stands and run to its next
    [await] (or to its return).  Its timers run while the fetcher's do and
    move no clock of their own. *)
Definition writer (f : Faults) (save_fails : bool) (st : State) : State :=
  match writerAt st with
  | WDone => st
  | WTop =>
      match writeQueue st with
      | [] =>
          {| fetchQueue := fetchQueue st; writeQueue := [];
             allFetched := allFetched st; lastCursor := lastCursor st;
             total := total st; fetcherAt := fetcherAt st;
             writerAt := if allFetched st then WDone else WTop;
             api := api st; remote := remote st; db := db st |}
      | batch :: rest =>
          {| fetchQueue := fetchQueue st; writeQueue := rest;
             allFetched := allFetched st; lastCursor := lastCursor st;
             total := total st; fetcherAt := fetcherAt st;
             writerAt := WAwaitInsert batch;
             api := api st; remote := remote st; db := db st |}
      end
  | WAwaitInsert batch =>
      match bulkInsertEvents toISOString (events batch) f (db st) with
      | None => st
      | Some (Returned _, db') =>
          let n := Z.of_nat (length (events batch)) in
          let total' := total st + n in
          let db'' :=
            if Z.rem total' 5000 <? n
            then snd (saveProgress (lastCursor st) 0 save_fails db')
            else db' in
          {| fetchQueue := fetchQueue st; writeQueue := writeQueue st;
             allFetched := allFetched st; lastCursor := lastCursor st;
             total := total'; fetcherAt := fetcherAt st; writerAt := WTop;
             api := api st; remote := remote st; db := db'' |}
      | Some (Threw, db') =>
          {| fetchQueue := fetchQueue st; writeQueue := batch :: writeQueue st;
             allFetched := allFetched st; lastCursor := lastCursor st;
             total := total st; fetcherAt := fetcherAt st; writerAt := WTop;
             api := api st; remote := remote st; db := db' |}
      end
  end.

(** The cursors the fetcher is to ask for, the one in flight first. *)
Definition upcoming (st : State) : list (option string) :=
  match fetcherAt st with
  | FAwaitFetch cursor => cursor :: fetchQueue st
  | _ => fetchQueue st
  end.

(** What the fetcher pushes on [fetchQueue] once [fetchEvents cursor] has
    settled with outcome [o]. *)
Definition requeued (cursor : option string) (o : Outcome)
  : list (option string) :=
  match o with
  | Pending => []
  | Resolved res =>
      if hasMore res && truthy (nextCursor res) then [nextCursor res] else []
  | Rejected (BadCursor _) => [None]
  | Rejected (RequestFailed _) =>
      match cursor with
      | Some _ => [cursor]
      | None => []
      end
  end.

(** The pause of the fetcher after an error: 5 s after [BAD_CURSOR], 3 s
    after any other. *)
Definition pauseAfter (o : Outcome) : Z :=
  match o with
  | Rejected (BadCursor _) => 5000
  | Rejected (RequestFailed _) => 3000
  | _ => 0
  end.

(** How one step moves the fetching side of the state: either only time
    passes, or a call of [fetchEvents] for the cursor in flight plays out,
    followed by the pause and the push that go with its outcome. *)
Definition moved (st st' : State) : Prop :=
  (later (api st) (api st') /\ remote st' = remote st
   /\ upcoming st' = upcoming st)
  \/ (exists cursor o api1,
        fetcherAt st = FAwaitFetch cursor
        /\ fetchEvents MIN_DELAY_MS cursor PAGE_SIZE (remote st) (api st)
           = (o, api1, remote st')
        /\ later api1 (api st')
        /\ now api1 + pauseAfter o <= now (api st')
        /\ upcoming st'
           = match o with
             | Pending => cursor :: fetchQueue st
             | _ => fetchQueue st ++ requeued cursor o
             end).


(** Kept by every step: the requests restart after the 400s, at most one
    cursor is waiting to be asked for, and after a 400 that cursor is the
    absent one and the 5 s pause has passed. *)
Definition restart_inv (st : State) : Prop :=
  adjacent (restarted 5000) (requests (api st))
  /\ (length (upcoming st) <= 1)%nat
  /\ forall r retry_after,
       last (requests (api st)) = Some r ->
       rq_response r = Failure 400 retry_after ->
       (exists cursor, upcoming st = [cursor] /\ cursorParam cursor = None)
       /\ rq_end r + 5000 <= now (api st).

Definition tick (ms : N) (st : State) : State :=
  {| fetchQueue := fetchQueue st; writeQueue := writeQueue st;
     allFetched := allFetched st; lastCursor := lastCursor st;
     total := total st; fetcherAt := fetcherAt st; writerAt := writerAt st;
     api := elapse (Z.of_N ms) (api st); remote := remote st; db := db st |}.

Definition step (st : State) (a : Action) : State :=
  match a with
  | RunFetcher => fetcher st
  | RunWriter f save_fails => writer f save_fails st
  | Tick ms => tick ms st
  end.

Definition run (schedule : list Action) (st : State) : State :=
  foldl step st schedule.

(** [Promise.all([fetcher(), writer()])] has resolved. *)
Definition finished (st : State) : bool :=
  match fetcherAt st, writerAt st with
  | FDone, WDone => true
  | _, _ => false
  end.

(** Which database calls of [runIngestion] itself fail. *)
Record MainFaults := {
  init_fails : bool;
  total_fails : bool;
  cursor_fails : bool;
  final_save_fails : bool;
  count_fails : bool
}.

Definition no_main_faults : MainFaults :=
  {| init_fails := false; total_fails := false; cursor_fails := false;
     final_save_fails := false; count_fails := false |}.

(** The state in which the two coroutines start. *)
Definition start (resumeCursor : option string) (existing : Z)
    (script : list Attempt) (api0 : Api.State) (db0 : Database) : State :=
  {| fetchQueue := [resumeCursor]; writeQueue := [];
     allFetched := false; lastCursor := resumeCursor;
     total := existing; fetcherAt := FTop; writerAt := WTop;
     api := api0; remote := script; db := db0 |}.

(** [runIngestion] up to the start of the two coroutines; [inr] when one of
    the three calls throws. *)
Definition boot (m : MainFaults) (script : list Attempt) (api0 : Api.State)
    (db0 : Database) : State + Database :=
  match initDb (init_fails m) db0 with
  | (Threw, db1) => inr db1
  | (Returned _, db1) =>
      match getTotalProcessed (total_fails m) db1 with
      | (Threw, db2) => inr db2
      | (Returned existing, db2) =>
          match getCursor (cursor_fails m) db2 with
          | (Threw, db3) => inr db3
          | (Returned resumeCursor, db3) =>
              inl (start resumeCursor existing script api0 db3)
          end
      end
  end.

(** [runIngestion] after [Promise.all]: the final [saveProgress], whose
    failure is swallowed, then the count query; the exit code with the
    database as the process leaves it. *)
Definition finish (m : MainFaults) (st : State) : Z * Database :=
  let db1 := snd (saveProgress (lastCursor st) 0 (final_save_fails m) (db st)) in
  let db2 := log QCount db1 in
  if count_fails m then (1, db2) else (0, db2).

(** The process from start to exit: the exit code ([process.exit(0)] at the
    end of [runIngestion], [process.exit(1)] in the handler of its
    rejection), the database and the state of [api.ts] at that moment.
    [None] when the schedule ends before both coroutines have. *)
Definition runIngestion (m : MainFaults) (schedule : list Action)
    (script : list Attempt) (api0 : Api.State) (db0 : Database)
  : option (Z * Database * Api.State) :=
  match boot m script api0 db0 with
  | inr db1 => Some (1, db1, api0)
  | inl st0 =>
      let st := run schedule st0 in
      if finished st then
        let '(code, db1) := finish m st in Some (code, db1, api st)
      else None
  end.

End Run.

End Pipeline.

(** ** Sample data *)

Module Sample.
Import Db Api Pipeline.

Definition dquote : string := String "034"%char EmptyString.

(** An event [{"id": id, "type": "click", "userId": "u1"}], no timestamp. *)
Definition event (id : string) : Event :=
  {| ev_id := Some id;
     ev_event_name := None; ev_type := Some "click"; ev_name := None;
     ev_user_id := None; ev_userId := Some "u1";
     ev_timestamp := None; ev_created_at := None; ev_createdAt := None;
     ev_json :=
       "{" +:+ dquote +:+ "id" +:+ dquote +:+ ":" +:+ dquote +:+ id +:+ dquote
       +:+ "," +:+ dquote +:+ "type" +:+ dquote +:+ ":" +:+ dquote +:+ "click"
       +:+ dquote +:+ "," +:+ dquote +:+ "userId" +:+ dquote +:+ ":" +:+ dquote
       +:+ "u1" +:+ dquote +:+ "}" |}.

(** [toISOString] as far as the samples need it: they carry no instant but
    the epoch, whose rendering this is. *)
Definition isoAtEpoch (ms : Z) : string := "1970-01-01T00:00:00.000Z".

(** A database on which nothing has run yet. *)
Definition emptyDb : Database :=
  {| db_events := ∅; db_state := None; db_txn := None; db_log := [] |}.

(** A fresh state: no events, the initial checkpoint row. *)
Definition freshDb : Database :=
  {| db_events := ∅; db_state := Some initial_state; db_txn := None;
     db_log := [] |}.

Definition abc : list Event := [event "a"; event "b"; event "c"].

(** A database left by an earlier run that stopped at cursor [c1]. *)
Definition resumedDb : Database :=
  {| db_events := ∅;
     db_state := Some {| next_cursor := Some "c1"; total_processed := 0 |};
     db_txn := None; db_log := [] |}.

(** A body of the shape the remote really sends:
    [{ data, hasMore, nextCursor }]. *)
Definition page (evs : list Event) (next : option string) (more : bool)
  : Body :=
  {| b_data := Some evs; b_events := None;
     b_nextCursor := next; b_next_cursor := None; b_pagination := None;
     b_hasMore := Some more; b_has_more := None |}.

(** An attempt that settles after 120 ms, with punctual timers. *)
Definition attempt (r : Response) : Attempt :=
  {| a_response := r; a_latency := 120; a_late_before := 0;
     a_late_after := 0 |}.

(** What [Date.now()] reads when the process starts. *)
Definition startTime : Z := 1700000000000.

(** Three gateway timeouts in a row. *)
Definition threeTimeouts : list Attempt :=
  [attempt (Failure 504 None); attempt (Failure 504 None);
   attempt (Failure 504 None)].

(** The remote of the first scenario: one page, three events, no more. *)
Definition singlePage : list Attempt :=
  [attempt (Success (page abc None false))].

(** A schedule for a fetch that fails once and is tried again: the fetcher
    takes the cursor, fails, takes the cursor again, gets the page; then
    the writer writes it. *)
Definition retrySchedule : list Action :=
  [RunFetcher; RunFetcher; RunFetcher; RunFetcher;
   RunWriter no_faults false; RunWriter no_faults false;
   RunWriter no_faults false].

(** A state of the pipeline in which the fetcher awaits the page after
    [c1]. *)
Definition awaitingC1 (script : list Attempt) : Pipeline.State :=
  {| fetchQueue := []; writeQueue := []; allFetched := false;
     lastCursor := Some "c1"; total := 0;
     fetcherAt := FAwaitFetch (Some "c1"); writerAt := WTop;
     api := Api.initial startTime; remote := script; db := resumedDb |}.

(** The batch the single page makes, and the ids of its events. *)
Definition abcBatch : Batch := {| events := abc; cursor := None |}.

Definition abcIds : gset string := {[ "a"; "b"; "c" ]}.

(** What every step keeps when the remote has the single page to give and
    the database was fresh: the cursor stays null, the checkpoint row stays
    as created, only ids of the page get into [events]; and either the page
    is still to be fetched and the writer idles, or it has been fetched and
    its batch is queued, or being inserted, or all its ids are in. *)
Definition onePage_inv (st : Pipeline.State) : Prop :=
  lastCursor st = None
  /\ db_state (db st) = Some initial_state
  /\ dom (db_events (db st)) ⊆ abcIds
  /\ ((remote st = singlePage /\ upcoming st = [None]
       /\ fetcherAt st <> FDone /\ allFetched st = false
       /\ writeQueue st = [] /\ writerAt st = WTop)
      \/ (remote st = [] /\ fetcherAt st = FDone /\ fetchQueue st = []
          /\ allFetched st = true
          /\ ((writeQueue st = [abcBatch] /\ writerAt st = WTop)
              \/ (writeQueue st = [] /\ writerAt st = WAwaitInsert abcBatch)
              \/ (writeQueue st = []
                  /\ (writerAt st = WTop \/ writerAt st = WDone)
                  /\ dom (db_events (db st)) = abcIds)))).

(** A schedule that lets the fetcher fetch one page and the writer write it,
    with no database fault. *)
Definition onePageSchedule : list Action :=
  [RunFetcher; RunWriter no_faults false; RunFetcher;
   RunWriter no_faults false; RunWriter no_faults false;
   RunWriter no_faults false].

End Sample.

(** ** worker.ts *)

Module Worker.
Import Db.

Section Worker.

Variable toISOString : Z -> string.

(** [processBatch]: nothing for an empty batch; otherwise the insert, then
    the checkpoint with the length of the batch.  A rejection of either
    [await] rejects the call. *)
Definition processBatch (events : list Event) (nextCursor : option string)
    (f : Faults) (save_fails : bool) (db : Database)
  : option (Result unit * Database) :=
  if (length events =? 0)%nat then Some (Returned tt, db)
  else
    match bulkInsertEvents toISOString events f db with
    | None => None
    | Some (Threw, db') => Some (Threw, db')
    | Some (Returned _, db') =>
        Some (saveProgress nextCursor (Z.of_nat (length events)) save_fails
                db')
    end.

End Worker.

End Worker.

(** ** Notions used to state further properties *)

Module Notions.
Import Db Api Pipeline.

(** *** Strings and rows *)

(** The character [c] occurs in [s]. *)
Fixpoint mentions (c : ascii) (s : string) : bool :=
  match s with
  | EmptyString => false
  | String a rest => Ascii.eqb a c || mentions c rest
  end.

(** The checkpoint row after [saveProgress nextCursor n]. *)
Definition advanced (nextCursor : option string) (n : nat) (s : StateRow)
  : StateRow :=
  {| next_cursor := nextCursor;
     total_processed := total_processed s + Z.of_nat n |}.

(** The cursor of the checkpoint, as [getCursor] reads it. *)
Definition checkpointCursor (db : Database) : option string :=
  match db_state db with
  | Some s => next_cursor s
  | None => None
  end.

(** *** Requests *)



(** A request starts when the one before it has settled. *)
Definition sequential (r1 r2 : Request) : Prop := rq_end r1 <= rq_start r2.

Definition sequential_ok (st : Api.State) : Prop :=
  adjacent sequential (requests st)
  /\ Forall (fun r => rq_start r <= rq_end r) (requests st)
  /\ forall r, last (requests st) = Some r -> rq_end r <= now st.


(** A request of [fetchEvents cursor limit]. *)
Definition sentFor (cursor : option string) (limit : Z) (r : Request)
  : Prop :=
  rq_cursor r = cursorParam cursor /\ rq_limit r = limit.

(** The requests of a call that ended on the response [resp]: all but the
    last were answered with a 429, a 504 or nothing, the last with
    [resp]. *)
Definition endsWith (news : list Request) (resp : Response) : Prop :=
  exists pre r,
    news = pre ++ [r]
    /\ Forall (fun r => retryable (rq_response r) = true) pre
    /\ rq_response r = resp.

(** Where the loop of a call stands on the record: at its head, the
    requests of the call so far were all retried; after a request, the last
    one was answered as the attempt says. *)
Definition atHead (cursor : option string) (limit : Z)
    (before : list Request) (st : Api.State) : Prop :=
  exists news,
    requests st = before ++ news
    /\ Forall (sentFor cursor limit) news
    /\ Forall (fun r => retryable (rq_response r) = true) news.

Definition afterRequest (cursor : option string) (limit : Z)
    (before : list Request) (a : Attempt) (st : Api.State) : Prop :=
  exists news,
    requests st = before ++ news
    /\ Forall (sentFor cursor limit) news
    /\ endsWith news (a_response a).

(** *** Runs of the pipeline *)


(** Kept by every step: at most one cursor waits to be asked for, and it is
    the value of [lastCursor]. *)
Definition queue_inv (st : Pipeline.State) : Prop :=
  (length (upcoming st) <= 1)%nat
  /\ forall c, c ∈ upcoming st -> c = lastCursor st.

(** A multiple of 5000 lies above [t] and not above [t + n]. *)
Definition crossesMultiple (t n : Z) : Prop :=
  exists k, t < 5000 * k <= t + n.

(** A state in which the writer awaits the insert of the batch of
    [Sample.abc], with [t] events written before. *)
Definition insertingAbc (t : Z) : Pipeline.State :=
  {| fetchQueue := []; writeQueue := []; allFetched := true;
     lastCursor := None; total := t;
     fetcherAt := FDone; writerAt := WAwaitInsert Sample.abcBatch;
     api := Api.initial Sample.startTime; remote := [];
     db := Sample.freshDb |}.

(** Kept by every step once a request without cursor has been rethrown:
    the fetcher has not returned and has nothing to ask for, or is still to
    make that request. *)
Definition stalled_inv (script : list Attempt) (st : Pipeline.State) : Prop :=
  allFetched st = false
  /\ fetcherAt st <> FDone
  /\ ((remote st = script /\ upcoming st = [None])
      \/ upcoming st = []).

(** The events a response delivers, and those delivered by all responses on
    the record. *)
Definition deliveredOf (r : Response) : list Event :=
  match r with
  | Success body => data (parseBody body)
  | _ => []
  end.

Definition delivered (st : Api.State) : list Event :=
  flat_map (fun r => deliveredOf (rq_response r)) (requests st).

(** The events fetched and not yet written: those of the batch being
    inserted and of the batches queued. *)
Definition waiting (st : Pipeline.State) : list Event :=
  flat_map events
    match writerAt st with
    | WAwaitInsert batch => batch :: writeQueue st
    | _ => writeQueue st
    end.

Definition idsOf (l : list Event) : gset string := list_to_set (map idOf l).

(** Kept by every step: each delivered event is in [events] by its id or
    still waiting; nothing waits that was not delivered; [events] holds the
    ids it started with and ids of delivered events, no others; the fetcher
    has returned once [allFetched] is set, and the writer returns only with
    an empty queue and [allFetched] set. *)
Definition stored_inv (db0 : Database) (st : Pipeline.State) : Prop :=
  (forall e, e ∈ delivered (api st) ->
             is_Some (db_events (db st) !! idOf e) \/ e ∈ waiting st)
  /\ (forall e, e ∈ waiting st -> e ∈ delivered (api st))
  /\ dom (db_events (db st))
     ⊆ dom (db_events db0) ∪ idsOf (delivered (api st))
  /\ dom (db_events db0) ⊆ dom (db_events (db st))
  /\ (allFetched st = true -> fetcherAt st = FDone)
  /\ (writerAt st = WDone -> writeQueue st = [] /\ allFetched st = true).





(** Kept by every step: every request on record asks for [limit] events,
    and the first of them carries the cursor [c]; while there is none, [c]
    is the one cursor waiting to be asked for. *)
Definition resume_inv (c : option string) (limit : Z) (st : Pipeline.State)
  : Prop :=
  Forall (fun r => rq_limit r = limit) (requests (api st))
  /\ match requests (api st) with
     | [] => upcoming st = [c]
     | r :: _ => rq_cursor r = cursorParam c
     end.

End Notions.

(** * Properties *)

(** ** The bulk loader *)

Module DbFacts.
Import Db.

(** *** Strings *)

Lemma app_cons a s1 s2 : String a s1 +:+ s2 = String a (s1 +:+ s2).
Proof. reflexivity. Qed.

Lemma app_empty_l s : EmptyString +:+ s = s.
Proof. reflexivity. Qed.

Lemma app_empty_r s : s +:+ EmptyString = s.
Proof. induction s as [|a s IH]; [done | by rewrite app_cons, IH]. Qed.

Lemma app_assoc s1 s2 s3 : (s1 +:+ s2) +:+ s3 = s1 +:+ (s2 +:+ s3).
Proof.
  induction s1 as [|a s1 IH]; [done|].
  by rewrite !app_cons, IH.
Qed.

Lemma replaceAll_app c rep s1 s2 :
  replaceAll c rep (s1 +:+ s2) = replaceAll c rep s1 +:+ replaceAll c rep s2.
Proof.
  induction s1 as [|a s1 IH]; [done|].
  rewrite app_cons. simpl. destruct (Ascii.eqb a c).
  - by rewrite IH, app_assoc.
  - by rewrite IH, app_cons.
Qed.

(** [escapeForCopy] is a character-wise substitution: the later passes never
    touch what the earlier ones produced. *)
Lemma escapeForCopy_cons a s :
  escapeForCopy (String a s) = escapeChar a +:+ escapeForCopy s.
Proof.
  unfold escapeForCopy, escapeChar. simpl replaceAll at 4.
  destruct (Ascii.eqb a BSL) eqn:Hb.
  { apply Ascii.eqb_eq in Hb as ->. by rewrite !replaceAll_app. }
  simpl replaceAll at 3. destruct (Ascii.eqb a LF) eqn:Hl.
  { apply Ascii.eqb_eq in Hl as ->. by rewrite !replaceAll_app. }
  simpl replaceAll at 2. destruct (Ascii.eqb a CR) eqn:Hc.
  { apply Ascii.eqb_eq in Hc as ->. by rewrite !replaceAll_app. }
  simpl replaceAll at 1. destruct (Ascii.eqb a TAB) eqn:Ht; [|done].
  apply Ascii.eqb_eq in Ht as ->. done.
Qed.

Lemma escapeForCopy_empty : escapeForCopy EmptyString = EmptyString.
Proof. reflexivity. Qed.

Lemma copy_unescape_values :
  copy_unescape BSL = BSL /\ copy_unescape "n" = LF /\
  copy_unescape "r" = CR /\ copy_unescape "t" = TAB.
Proof. by vm_compute. Qed.

Lemma copy_read_escape_seq x rest cur fields rows :
  copy_read (esc x +:+ rest) cur fields rows
  = copy_read rest (cur +:+ String (copy_unescape x) EmptyString) fields rows.
Proof. reflexivity. Qed.

Lemma copy_read_other a rest cur fields rows :
  Ascii.eqb a BSL = false -> Ascii.eqb a TAB = false ->
  Ascii.eqb a LF = false ->
  copy_read (String a rest) cur fields rows
  = copy_read rest (cur +:+ String a EmptyString) fields rows.
Proof. intros Hb Ht Hl. simpl. by rewrite Hb, Ht, Hl. Qed.

Lemma app_snoc cur a s :
  (cur +:+ String a EmptyString) +:+ s = cur +:+ String a s.
Proof. by rewrite app_assoc. Qed.

(** The reader undoes [escapeForCopy]. *)
Lemma copy_read_escaped s rest cur fields rows :
  copy_read (escapeForCopy s +:+ rest) cur fields rows
  = copy_read rest (cur +:+ s) fields rows.
Proof.
  revert cur. induction s as [|a s IH]; intros cur.
  { by rewrite escapeForCopy_empty, app_empty_l, app_empty_r. }
  destruct copy_unescape_values as (Ub & Un & Ur & Ut).
  rewrite escapeForCopy_cons, app_assoc. unfold escapeChar.
  destruct (Ascii.eqb a BSL) eqn:Hb.
  { apply Ascii.eqb_eq in Hb as ->.
    by rewrite copy_read_escape_seq, IH, Ub, app_snoc. }
  destruct (Ascii.eqb a LF) eqn:Hl.
  { apply Ascii.eqb_eq in Hl as ->.
    by rewrite copy_read_escape_seq, IH, Un, app_snoc. }
  destruct (Ascii.eqb a CR) eqn:Hc.
  { apply Ascii.eqb_eq in Hc as ->.
    by rewrite copy_read_escape_seq, IH, Ur, app_snoc. }
  destruct (Ascii.eqb a TAB) eqn:Ht.
  { apply Ascii.eqb_eq in Ht as ->.
    by rewrite copy_read_escape_seq, IH, Ut, app_snoc. }
  by rewrite app_cons, app_empty_l, copy_read_other, IH, app_snoc.
Qed.

Lemma copy_read_plain s rest cur fields rows :
  plain s = true ->
  copy_read (s +:+ rest) cur fields rows
  = copy_read rest (cur +:+ s) fields rows.
Proof.
  revert cur. induction s as [|a s IH]; intros cur Hp.
  { by rewrite app_empty_l, app_empty_r. }
  simpl in Hp.
  apply andb_true_iff in Hp as [Hp Hs]. apply andb_true_iff in Hp as [Hp Hl].
  apply andb_true_iff in Hp as [Hb Ht].
  apply negb_true_iff in Hb, Ht, Hl.
  rewrite app_cons, copy_read_other by done.
  by rewrite IH, app_snoc.
Qed.

Lemma copy_read_tab rest cur fields rows :
  copy_read (tab +:+ rest) cur fields rows
  = copy_read rest EmptyString (fields ++ [cur]) rows.
Proof. reflexivity. Qed.

Lemma copy_read_newline rest cur fields rows :
  copy_read (newline +:+ rest) cur fields rows
  = copy_read rest EmptyString [] (rows ++ [fields ++ [cur]]).
Proof. reflexivity. Qed.

(** *** Insert with skip on conflict *)

Lemma insert_row_lookup (t : gmap string Row) r k :
  insert_row t r !! k
  = match t !! k with
    | Some x => Some x
    | None => if decide (r_id r = k) then Some r else None
    end.
Proof.
  unfold insert_row. destruct (t !! r_id r) as [x|] eqn:Hr.
  - destruct (t !! k) eqn:Hk; [done|]. case_decide; [congruence | done].
  - rewrite lookup_insert. case_decide; subst.
    + by rewrite Hr.
    + by destruct (t !! k).
Qed.

(** A key already present keeps its row; a new key gets the first proposed
    row that carries it. *)
Lemma insert_do_nothing_lookup rows (t : gmap string Row) k :
  insert_do_nothing rows t !! k
  = match t !! k with
    | Some x => Some x
    | None => List.find (fun r => bool_decide (r_id r = k)) rows
    end.
Proof.
  unfold insert_do_nothing. revert t.
  induction rows as [|r rows IH]; intros t; simpl.
  { by destruct (t !! k). }
  rewrite IH, insert_row_lookup.
  destruct (t !! k); [done|].
  case_decide; [by rewrite bool_decide_true | by rewrite bool_decide_false].
Qed.

Lemma insert_do_nothing_app rows1 rows2 (t : gmap string Row) :
  insert_do_nothing (rows1 ++ rows2) t
  = insert_do_nothing rows2 (insert_do_nothing rows1 t).
Proof. apply foldl_app. Qed.

Lemma insert_do_nothing_present rows (t : gmap string Row) :
  (forall r, r ∈ rows -> is_Some (t !! r_id r)) ->
  insert_do_nothing rows t = t.
Proof.
  intros Hall. apply map_eq. intros k.
  rewrite insert_do_nothing_lookup.
  destruct (t !! k) eqn:Hk; [done|].
  destruct (List.find _ rows) as [r|] eqn:Hf; [|done].
  apply List.find_some in Hf as [Hin Hid].
  apply bool_decide_eq_true in Hid. subst k.
  apply list_elem_of_In, Hall in Hin. rewrite Hk in Hin. by destruct Hin.
Qed.

Lemma insert_do_nothing_covers rows (t : gmap string Row) r :
  r ∈ rows -> is_Some (insert_do_nothing rows t !! r_id r).
Proof.
  intros Hin. rewrite insert_do_nothing_lookup.
  destruct (t !! r_id r); [by eexists|].
  destruct (List.find _ rows) eqn:Hf; [by eexists|].
  apply list_elem_of_In in Hin.
  apply (List.find_none _ _ Hf) in Hin. by rewrite bool_decide_true in Hin.
Qed.

(** Proposing again rows that were all proposed before changes nothing. *)
Lemma insert_do_nothing_again rows rows' (t : gmap string Row) :
  (forall r, r ∈ rows' -> r ∈ rows) ->
  insert_do_nothing rows' (insert_do_nothing rows t)
  = insert_do_nothing rows t.
Proof.
  intros Hsub. apply insert_do_nothing_present.
  intros r Hr. by apply insert_do_nothing_covers, Hsub.
Qed.

(** *** The fallback path *)

Lemma slice_subseteq {A} i j (l : list A) x : x ∈ slice i j l -> x ∈ l.
Proof.
  unfold slice. intros H.
  by apply (subseteq_drop i l), (subseteq_take (j - i) (drop i l)).
Qed.

Lemma slice_drop {A} i c (l : list A) :
  slice i (i + c) l ++ drop (i + c) l = drop i l.
Proof.
  unfold slice. replace (i + c - i)%nat with c by lia.
  by rewrite <- drop_drop, take_drop.
Qed.

Lemma slice_length {A} i c (l : list A) :
  length (slice i (i + c) l) = Nat.min c (length l - i).
Proof.
  unfold slice. replace (i + c - i)%nat with c by lia.
  by rewrite length_take, length_drop.
Qed.

Lemma CHUNK_pos : (0 < CHUNK)%nat.
Proof. unfold CHUNK. lia. Qed.

Section Fallback.

Variable toISOString : Z -> string.

Lemma map_valuesOf_subseteq (l1 l2 : list Event) :
  (forall e, e ∈ l1 -> e ∈ l2) ->
  forall r, r ∈ map (valuesOf toISOString) l1 ->
            r ∈ map (valuesOf toISOString) l2.
Proof.
  intros Hsub r Hr. apply list_elem_of_In, in_map_iff in Hr as (e & <- & He).
  apply list_elem_of_In, in_map. by apply list_elem_of_In, Hsub, list_elem_of_In.
Qed.

Lemma fallbackLoop_S fuel events f i inserted db :
  fallbackLoop toISOString (S fuel) events f i inserted db
  = if (i <? length events)%nat then
      let chunk := slice i (i + CHUNK) events in
      let values := map (valuesOf toISOString) chunk in
      let db := log (QInsertChunk values) db in
      if decide (f_fallback f = Some (i / CHUNK)%nat) then Some (Threw, db)
      else
        fallbackLoop toISOString fuel events f (i + CHUNK)%nat
          (inserted + length chunk)%nat (exec_insert_chunk values db)
    else Some (Returned inserted, db).
Proof. reflexivity. Qed.

(** The loop ends within [length events - i + 1] iterations.  It proposes
    rows of the batch only, never touches the checkpoint row, and when it
    returns it has proposed every row from [i] on and counted each. *)
Lemma fallbackLoop_spec events f fuel i inserted db :
  (length events - i < fuel)%nat ->
  exists r db' rows,
    fallbackLoop toISOString fuel events f i inserted db = Some (r, db')
    /\ db_events db' = insert_do_nothing rows (db_events db)
    /\ (forall x, x ∈ rows -> x ∈ map (valuesOf toISOString) events)
    /\ db_state db' = db_state db
    /\ db_txn db' = db_txn db
    /\ (forall n, r = Returned n ->
          n = (inserted + (length events - i))%nat
          /\ rows = map (valuesOf toISOString) (drop i events))
    /\ (f_fallback f = None -> exists n, r = Returned n).
Proof.
  revert i inserted db.
  induction fuel as [|fuel IH]; intros i inserted db Hfuel; [lia|].
  rewrite fallbackLoop_S.
  destruct (i <? length events)%nat eqn:Hi.
  - apply Nat.ltb_lt in Hi. cbv zeta.
    destruct (decide (f_fallback f = Some (i / CHUNK)%nat)) as [Hf|Hf].
    + exists Threw, (log (QInsertChunk (map (valuesOf toISOString)
                       (slice i (i + CHUNK) events))) db), [].
      repeat split; try done.
      * intros x Hx. by apply elem_of_nil in Hx.
      * rewrite Hf. done.
    + pose proof CHUNK_pos as Hc.
      destruct (IH (i + CHUNK)%nat
                  (inserted + length (slice i (i + CHUNK) events))%nat
                  (exec_insert_chunk
                     (map (valuesOf toISOString) (slice i (i + CHUNK) events))
                     (log (QInsertChunk (map (valuesOf toISOString)
                        (slice i (i + CHUNK) events))) db)))
        as (r & db' & rows & Hrun & Hev & Hsub & Hst & Htx & Hret & Hok);
        [lia|].
      exists r, db',
        (map (valuesOf toISOString) (slice i (i + CHUNK) events) ++ rows).
      split; [done|]. split.
      { by rewrite Hev, insert_do_nothing_app. }
      split.
      { intros x [Hx|Hx]%elem_of_app; [|by apply Hsub].
        revert x Hx. apply map_valuesOf_subseteq. apply slice_subseteq. }
      repeat split; try done.
      * destruct (Hret n H) as [-> _]. rewrite slice_length. lia.
      * destruct (Hret n H) as [_ ->].
        by rewrite <- map_app, slice_drop.
  - apply Nat.ltb_ge in Hi.
    exists (Returned inserted), db, [].
    repeat split; try done.
    + intros x Hx. by apply elem_of_nil in Hx.
    + injection H as <-. lia.
    + by rewrite drop_ge.
    + by eexists.
Qed.

Lemma fallbackInsert_spec events f db :
  exists r db' rows,
    fallbackInsert toISOString events f db = Some (r, db')
    /\ db_events db' = insert_do_nothing rows (db_events db)
    /\ (forall x, x ∈ rows -> x ∈ map (valuesOf toISOString) events)
    /\ db_state db' = db_state db
    /\ db_txn db' = db_txn db
    /\ (forall n, r = Returned n ->
          n = length events /\ rows = map (valuesOf toISOString) events)
    /\ (f_fallback f = None -> exists n, r = Returned n).
Proof.
  unfold fallbackInsert.
  destruct (fallbackLoop_spec events f (S (length events)) 0 0 db)
    as (r & db' & rows & Hrun & Hev & Hsub & Hst & Htx & Hret & Hok); [lia|].
  exists r, db', rows. repeat split; try done.
  - destruct (Hret n H) as [-> _]. lia.
  - by destruct (Hret n H) as [_ ->].
Qed.

End Fallback.

Section Roundtrip.

Variable toISOString : Z -> string.
Hypothesis toISOString_plain : forall ms, plain (toISOString ms) = true.

Lemma tsOf_plain e : plain (tsOf toISOString e) = true.
Proof.
  unfold tsOf, normalizeTimestamp.
  destruct (_ ?? _ ?? _) as [[| |ms]|]; apply toISOString_plain.
Qed.

Lemma copy_read_line e rest rows :
  copy_read (copyLine toISOString e +:+ newline +:+ rest) EmptyString [] rows
  = copy_read rest EmptyString [] (rows ++ [fieldsOf toISOString e]).
Proof.
  unfold copyLine. rewrite !app_assoc.
  rewrite copy_read_escaped, copy_read_tab.
  rewrite copy_read_escaped, copy_read_tab.
  rewrite copy_read_escaped, copy_read_tab.
  rewrite copy_read_plain by apply tsOf_plain. rewrite copy_read_tab.
  rewrite copy_read_escaped, copy_read_newline.
  by rewrite !app_empty_l.
Qed.

Lemma copy_read_lines events rows :
  events <> [] ->
  copy_read (copyData toISOString events) EmptyString [] rows
  = Some (rows ++ map (fieldsOf toISOString) events).
Proof.
  unfold copyData. revert rows.
  induction events as [|e [|e' es] IH]; intros rows Hne; [done| |].
  - simpl map. simpl String.concat.
    rewrite <- (app_empty_r newline), copy_read_line. done.
  - change (String.concat newline (map (copyLine toISOString) (e :: e' :: es)))
      with (copyLine toISOString e +:+ newline +:+
            String.concat newline (map (copyLine toISOString) (e' :: es))).
    rewrite !app_assoc, copy_read_line, IH by done.
    by rewrite <- List.app_assoc.
Qed.

Lemma staging_rows_fields events :
  mapM staging_row (map (fieldsOf toISOString) events)
  = Some (map (valuesOf toISOString) events).
Proof.
  induction events as [|e es IH]; [done|].
  simpl. simpl in IH. by rewrite IH.
Qed.

(** What [COPY] stages is what the fallback path sends as values. *)
Lemma copy_rows_copyData events :
  events <> [] ->
  copy_rows (copyData toISOString events)
  = Some (map (valuesOf toISOString) events).
Proof.
  intros Hne. unfold copy_rows.
  rewrite copy_read_lines by done. apply staging_rows_fields.
Qed.

(** *** The primary path *)

Lemma stage_fails_Some f st k st' :
  f_primary f = Some (st, k) ->
  stage_fails f st' = if decide (st = st') then Some k else None.
Proof. intros H. unfold stage_fails. by rewrite H. Qed.

Lemma stage_fails_None f st : f_primary f = None -> stage_fails f st = None.
Proof. intros H. unfold stage_fails. by rewrite H. Qed.

Ltac unfold_primary :=
  unfold primaryPath, exec_begin, exec_create_staging, exec_copy, exec_merge,
    exec_commit, and_then, with_txn.

(** A failed transaction leaves the committed table and the checkpoint row
    as they were: its writes live in its own view. *)
Lemma primaryPath_failed events f db dbx :
  primaryPath toISOString events f db = inr dbx ->
  db_events dbx = db_events db /\ db_state dbx = db_state db.
Proof.
  unfold_primary. intros H.
  repeat case_match; simplify_eq/=; done.
Qed.

(** An injected fault makes the transaction fail, whatever the stage. *)
Lemma primaryPath_fault events f st k db :
  f_primary f = Some (st, k) ->
  exists dbx, primaryPath toISOString events f db = inr dbx.
Proof.
  intros Hf. unfold_primary.
  rewrite !(stage_fails_Some f st k) by done.
  destruct st; simpl; repeat case_match; simplify_eq/=; eauto.
Qed.

(** Without a fault the transaction commits the merge of the batch. *)
Lemma primaryPath_commits events f db :
  events <> [] -> f_primary f = None ->
  exists db',
    primaryPath toISOString events f db = inl db'
    /\ db_events db'
       = insert_do_nothing (map (valuesOf toISOString) events) (db_events db)
    /\ db_state db' = db_state db
    /\ db_txn db' = None.
Proof.
  intros Hne Hf. unfold_primary.
  rewrite !stage_fails_None by done.
  rewrite copy_rows_copyData by done. simpl.
  eexists. split; [done|]. done.
Qed.

(** *** [bulkInsertEvents] as a whole *)

(** Every call ends.  It proposes rows of the batch only and leaves the
    checkpoint row alone; when it returns, by either path, it has proposed
    the whole batch and returns the length of the batch. *)
Lemma bulkInsertEvents_spec events f db :
  exists r db' rows,
    bulkInsertEvents toISOString events f db = Some (r, db')
    /\ db_events db' = insert_do_nothing rows (db_events db)
    /\ (forall x, x ∈ rows -> x ∈ map (valuesOf toISOString) events)
    /\ db_state db' = db_state db
    /\ (forall n, r = Returned n ->
          n = length events /\ rows = map (valuesOf toISOString) events)
    /\ (f_connect f = false -> f_fallback f = None -> exists n, r = Returned n).
Proof.
  unfold bulkInsertEvents.
  destruct events as [|e es]; simpl length.
  { exists (Returned 0%nat), db, []. repeat split; try done.
    - by injection H as <-.
    - by eexists. }
  change (S (length es) =? 0)%nat with false. cbv iota zeta.
  set (events := e :: es).
  destruct (f_connect f) eqn:Hc.
  { exists Threw, (log QConnect db), []. repeat split; try done.
    intros x Hx. by apply elem_of_nil in Hx. }
  destruct (primaryPath toISOString events f (log QConnect db))
    as [db1|dbx] eqn:Hp.
  - destruct (f_primary f) as [[st k]|] eqn:Hf.
    { destruct (primaryPath_fault events f st k (log QConnect db) Hf)
        as [dbx Hx]. congruence. }
    destruct (primaryPath_commits events f (log QConnect db))
      as (db' & Hrun & Hev & Hst & _); [done..|].
    assert (db' = db1) as -> by congruence.
    exists (Returned (length events)), db1, (map (valuesOf toISOString) events).
    repeat split; try done.
    + by injection H as <-.
    + by eexists.
  - apply primaryPath_failed in Hp as [Hev Hst].
    destruct (fallbackInsert_spec toISOString events f (exec_rollback dbx))
      as (r & db' & rows & Hrun & Hev' & Hsub & Hst' & _ & Hret & Hok).
    exists r, db', rows. split; [done|].
    split; [rewrite Hev'; simpl; by rewrite Hev |]. split; [done|].
    split; [rewrite Hst'; simpl; by rewrite Hst |]. split; [done|]. auto.
Qed.

End Roundtrip.

(** *** The claims about the loader *)

(** C6.  Persisting a batch is idempotent under the event id: once
    [bulkInsertEvents] has returned for a batch, running it again on the same
    batch, whatever path the second run takes and whether or not it
    succeeds, leaves the [events] table, and so its row count, as the first
    run left it.  (The hypothesis is about the runtime: [toISOString] emits
    no tab, newline or backslash.) *)
Theorem insertBatch_idempotent toISOString events f1 f2 db n db1 :
  (forall ms, plain (toISOString ms) = true) ->
  bulkInsertEvents toISOString events f1 db = Some (Returned n, db1) ->
  exists r db2,
    bulkInsertEvents toISOString events f2 db1 = Some (r, db2)
    /\ db_events db2 = db_events db1
    /\ size (db_events db2) = size (db_events db1).
Proof.
  intros Hp Hrun1.
  destruct (bulkInsertEvents_spec toISOString Hp events f1 db)
    as (r1 & d1 & rows1 & Hr1 & Hev1 & _ & _ & Hret1 & _).
  rewrite Hrun1 in Hr1. injection Hr1 as <- <-.
  destruct (Hret1 n eq_refl) as [_ ->].
  destruct (bulkInsertEvents_spec toISOString Hp events f2 db1)
    as (r2 & db2 & rows2 & Hr2 & Hev2 & Hsub2 & _).
  exists r2, db2. split; [done|].
  assert (db_events db2 = db_events db1) as Heq.
  { rewrite Hev2, Hev1. by apply insert_do_nothing_again. }
  by rewrite Heq.
Qed.

Lemma insertBatch_idempotent_witness :
  exists n db1,
    bulkInsertEvents Sample.isoAtEpoch Sample.abc no_faults Sample.emptyDb
    = Some (Returned n, db1)
    /\ exists r db2,
         bulkInsertEvents Sample.isoAtEpoch Sample.abc
           (primary_fault StCopy 2) db1 = Some (r, db2)
         /\ db_events db2 = db_events db1
         /\ size (db_events db2) = size (db_events db1).
Proof.
  eexists _, _. split; [reflexivity|].
  eapply (insertBatch_idempotent Sample.isoAtEpoch Sample.abc no_faults
            (primary_fault StCopy 2) Sample.emptyDb).
  - intros ms. reflexivity.
  - reflexivity.
Defined.

(** C7.  The staged bulk-copy path and the chunked-insert path leave the same
    [events] table.  With no fault [bulkInsertEvents] commits the primary
    transaction; with a fault in any stage of it the fallback path runs
    instead; both return, and the tables agree: an id already present keeps
    its row, an id not yet present gets the first row of the batch that
    carries it.  (The hypothesis is about the runtime: [toISOString] emits
    no tab, newline or backslash.) *)
Theorem primary_fallback_same_table toISOString events db st k :
  (forall ms, plain (toISOString ms) = true) ->
  exists dbp dbx dbf,
    bulkInsertEvents toISOString events no_faults db
    = Some (Returned (length events), dbp)
    /\ (events <> [] ->
        primaryPath toISOString events no_faults (log QConnect db) = inl dbp)
    /\ bulkInsertEvents toISOString events (primary_fault st k) db
       = Some (Returned (length events), dbf)
    /\ (events <> [] ->
        primaryPath toISOString events (primary_fault st k)
          (log QConnect db) = inr dbx
        /\ fallbackInsert toISOString events (primary_fault st k)
             (exec_rollback dbx) = Some (Returned (length events), dbf))
    /\ db_events dbp = db_events dbf
    /\ forall id,
         db_events dbp !! id
         = match db_events db !! id with
           | Some r => Some r
           | None =>
               List.find (fun r => bool_decide (r_id r = id))
                 (map (valuesOf toISOString) events)
           end.
Proof.
  intros Hp. destruct events as [|e es].
  { exists db, db, db. repeat split; try done.
    intros id. simpl. by destruct (db_events db !! id). }
  set (events := e :: es). set (fp := primary_fault st k).
  destruct (primaryPath_commits toISOString Hp events no_faults
              (log QConnect db)) as (dbp & Hprim & Hevp & _); [done..|].
  destruct (primaryPath_fault toISOString events fp st k (log QConnect db))
    as [dbx Hx]; [done|].
  destruct (primaryPath_failed toISOString events fp _ _ Hx) as [Hevx _].
  destruct (fallbackInsert_spec toISOString events fp (exec_rollback dbx))
    as (r & dbf & rows & Hfb & Hevf & _ & _ & _ & Hret & Hok).
  destruct (Hok eq_refl) as [n ->]. destruct (Hret n eq_refl) as [-> ->].
  exists dbp, dbx, dbf.
  assert (db_events dbf
          = insert_do_nothing (map (valuesOf toISOString) events)
              (db_events db)) as Hevf'.
  { rewrite Hevf. simpl. by rewrite Hevx. }
  repeat split; try done.
  - unfold bulkInsertEvents. simpl. fold events. by rewrite Hprim.
  - unfold bulkInsertEvents. simpl. fold events. fold fp. by rewrite Hx.
  - by rewrite Hevp, Hevf'.
  - intros id. rewrite Hevp. apply insert_do_nothing_lookup.
Qed.

Lemma primary_fallback_same_table_witness :
  exists dbp dbf,
    bulkInsertEvents Sample.isoAtEpoch Sample.abc no_faults Sample.freshDb
    = Some (Returned 3%nat, dbp)
    /\ bulkInsertEvents Sample.isoAtEpoch Sample.abc
         (primary_fault StMerge 1) Sample.freshDb
       = Some (Returned 3%nat, dbf)
    /\ db_events dbp = db_events dbf.
Proof.
  destruct (primary_fallback_same_table Sample.isoAtEpoch Sample.abc
              Sample.freshDb StMerge 1 (fun ms => eq_refl))
    as (dbp & dbx & dbf & H1 & _ & H2 & _ & H3 & _).
  by exists dbp, dbf.
Defined.

(** C8.  When a stage of the primary path fails (any of [BEGIN], the
    creation of the staging table, the [COPY] stream, the merge insert,
    [COMMIT], and however many rows the failing statement had handled), the
    transaction is rolled back: the committed table is the one from before
    the call and neither the view nor the staging table of the transaction
    survives.  [bulkInsertEvents] then is the fallback path run on the same
    batch from that state. *)
Theorem primary_failure_rolls_back_then_falls_back
    toISOString events f st k db :
  events <> [] -> f_connect f = false -> f_primary f = Some (st, k) ->
  exists dbx,
    primaryPath toISOString events f (log QConnect db) = inr dbx
    /\ db_events (exec_rollback dbx) = db_events db
    /\ db_txn (exec_rollback dbx) = None
    /\ last (db_log (exec_rollback dbx)) = Some QRollback
    /\ bulkInsertEvents toISOString events f db
       = fallbackInsert toISOString events f (exec_rollback dbx).
Proof.
  intros Hne Hc Hf.
  destruct (primaryPath_fault toISOString events f st k (log QConnect db) Hf)
    as [dbx Hx].
  destruct (primaryPath_failed toISOString events f _ _ Hx) as [Hev _].
  exists dbx. repeat split; try done.
  - simpl. by rewrite last_snoc.
  - unfold bulkInsertEvents. destruct events as [|e es]; [done|].
    simpl length. change (S (length es) =? 0)%nat with false. cbv iota zeta.
    by rewrite Hc, Hx.
Qed.

Lemma primary_failure_rolls_back_then_falls_back_witness :
  exists dbx,
    primaryPath Sample.isoAtEpoch Sample.abc (primary_fault StMerge 2)
      (log QConnect Sample.freshDb) = inr dbx
    /\ db_events (exec_rollback dbx) = db_events Sample.freshDb
    /\ db_txn (exec_rollback dbx) = None
    /\ last (db_log (exec_rollback dbx)) = Some QRollback
    /\ bulkInsertEvents Sample.isoAtEpoch Sample.abc
         (primary_fault StMerge 2) Sample.freshDb
       = fallbackInsert Sample.isoAtEpoch Sample.abc
           (primary_fault StMerge 2) (exec_rollback dbx).
Proof.
  apply (primary_failure_rolls_back_then_falls_back Sample.isoAtEpoch
           Sample.abc (primary_fault StMerge 2) StMerge 2
           Sample.freshDb); [discriminate | reflexivity | reflexivity].
Defined.

(** C10.  When [bulkInsertEvents] returns, by either path, it returns the
    length of the batch.  For the empty batch it returns 0 at once and sends
    nothing to the database.  The value is not the number of rows newly
    inserted: when every id of the batch is already in the table, the table
    is unchanged and the length of the batch is returned all the same.  (The
    first hypothesis is about the runtime: [toISOString] emits no tab,
    newline or backslash.) *)
Theorem bulkInsertEvents_returns_batch_length toISOString events f db n db' :
  (forall ms, plain (toISOString ms) = true) ->
  bulkInsertEvents toISOString events f db = Some (Returned n, db') ->
  n = length events
  /\ bulkInsertEvents toISOString [] f db = Some (Returned 0%nat, db)
  /\ (events = [] -> db' = db)
  /\ ((forall e, e ∈ events -> is_Some (db_events db !! idOf e)) ->
      db_events db' = db_events db).
Proof.
  intros Hp Hrun.
  destruct (bulkInsertEvents_spec toISOString Hp events f db)
    as (r & d & rows & Hr & Hev & _ & _ & Hret & _).
  rewrite Hrun in Hr. injection Hr as <- <-.
  destruct (Hret n eq_refl) as [-> ->].
  repeat split; try done.
  - intros ->. unfold bulkInsertEvents in Hrun. simpl in Hrun. congruence.
  - intros Hall. rewrite Hev. apply insert_do_nothing_present.
    intros x Hx. apply list_elem_of_In, in_map_iff in Hx as (e & <- & He).
    apply Hall. by apply list_elem_of_In.
Qed.

Lemma bulkInsertEvents_returns_batch_length_witness :
  exists db1 db2,
    bulkInsertEvents Sample.isoAtEpoch Sample.abc no_faults Sample.freshDb
    = Some (Returned 3%nat, db1)
    /\ bulkInsertEvents Sample.isoAtEpoch Sample.abc no_faults db1
       = Some (Returned 3%nat, db2)
    /\ 3%nat = length Sample.abc
    /\ db_events db2 = db_events db1.
Proof.
  eexists _, _. split; [reflexivity|]. split; [reflexivity|].
  edestruct (bulkInsertEvents_returns_batch_length Sample.isoAtEpoch
               Sample.abc no_faults) as (Hn & _ & _ & Hsame).
  - intros ms. reflexivity.
  - reflexivity.
  - split; [exact Hn|]. apply Hsame.
    intros e He. vm_compute in He.
    repeat (apply elem_of_cons in He as [->|He]; [by eexists|]).
    by apply elem_of_nil in He.
Defined.

End DbFacts.

(** ** The fetcher of pages *)

Module ApiFacts.
Import Db Api.

(** *** Consecutive elements *)

Lemma adjacent_nil {A} (P : A -> A -> Prop) : adjacent P [].
Proof. intros i x y Hx. by rewrite lookup_nil in Hx. Qed.

Lemma adjacent_snoc {A} (P : A -> A -> Prop) l y :
  adjacent P l ->
  (forall x, last l = Some x -> P x y) ->
  adjacent P (l ++ [y]).
Proof.
  intros Hl Hlast i x y' Hx Hy.
  destruct (decide (S i < length l)%nat) as [Hlt|Hge].
  - rewrite lookup_app_l in Hx by lia. rewrite lookup_app_l in Hy by lia.
    by apply (Hl i).
  - assert (S i = length l) as Hi.
    { apply lookup_lt_Some in Hy. rewrite length_app in Hy. simpl in Hy. lia. }
    rewrite lookup_app_l in Hx by lia.
    rewrite lookup_app_r, Hi, Nat.sub_diag in Hy by lia.
    injection Hy as <-. apply Hlast.
    rewrite last_lookup. rewrite <- Hi. done.
Qed.

(** *** One request *)

Section Fetch.

Variable MIN_DELAY_MS : Z.

Local Abbreviation atStart := (atStart MIN_DELAY_MS).
Local Abbreviation requestOf := (requestOf MIN_DELAY_MS).
Local Abbreviation sent := (sent MIN_DELAY_MS).
Local Abbreviation fetchLoop := (fetchLoop MIN_DELAY_MS).

Lemma sent_eq cursor limit a st :
  sent cursor limit a st
  = record (requestOf cursor limit a st)
      (elapse (Z.of_N (a_latency a)) (atStart a st)).
Proof. reflexivity. Qed.

Lemma atStart_requests a st : requests (atStart a st) = requests st.
Proof. unfold Api.atStart. by destruct (_ <? _). Qed.

Lemma atStart_now a st :
  now st <= now (atStart a st)
  /\ lastRequestTime st + MIN_DELAY_MS <= now (atStart a st)
  /\ lastRequestTime (atStart a st) = now (atStart a st).
Proof.
  unfold Api.atStart.
  destruct (_ <? _) eqn:Hgap; simpl;
    [apply Z.ltb_lt in Hgap | apply Z.ltb_ge in Hgap]; lia.
Qed.

Lemma atStart_backoffs a st : backoffs (atStart a st) = backoffs st.
Proof.
  unfold Api.atStart, backoffs. destruct (_ <? _); simpl; [|done].
  by rewrite omap_app, app_nil_r.
Qed.

(** The loop, one iteration unfolded. *)
Lemma fetchLoop_cons cursor limit retries a script st :
  fetchLoop cursor limit retries (a :: script) st
  = match a_response a with
    | Success body =>
        (Resolved (parseBody body), sent cursor limit a st, script)
    | Failure status retry_after =>
        if status =? 429 then
          fetchLoop cursor limit retries script
            (afterCooldown retry_after a (sent cursor limit a st))
        else if status =? 400 then
          (Rejected (BadCursor cursor), sent cursor limit a st, script)
        else if status =? 504 then
          fetchLoop cursor limit (retries + 1) script
            (afterBackoff retries a (sent cursor limit a st))
        else (Rejected (RequestFailed status), sent cursor limit a st, script)
    | NoResponse =>
        fetchLoop cursor limit (retries + 1) script
          (afterBackoff retries a (sent cursor limit a st))
    end.
Proof. reflexivity. Qed.

(** [I] at the head of the loop and [J] once a request has settled: if each
    iteration takes [I] to [J] and the two retrying handlers take [J] back
    to [I], the loop leaves off either with the script used up and [I], or
    on a response that ends it and [J]. *)
Lemma fetchLoop_keeps (I : State -> Prop) (J : Attempt -> State -> Prop)
    cursor limit :
  (forall a st, I st -> J a (sent cursor limit a st)) ->
  (forall a st retry_after,
      J a st -> a_response a = Failure 429 retry_after ->
      I (afterCooldown retry_after a st)) ->
  (forall a st retries,
      J a st -> transient (a_response a) = true ->
      I (afterBackoff retries a st)) ->
  forall script retries st,
    I st ->
    match fetchLoop cursor limit retries script st with
    | (Pending, st', rest) => I st' /\ rest = []
    | (o, st', _) => exists a, J a st' /\ settles cursor (a_response a) o
    end.
Proof.
  intros Hsent Hcool Hback script.
  induction script as [|a script IH]; intros retries st HI; [done|].
  rewrite fetchLoop_cons.
  pose proof (Hsent a st HI) as HJ.
  destruct (a_response a) as [body|status ra|] eqn:Hr.
  - exists a. by rewrite Hr.
  - destruct (status =? 429) eqn:H429.
    { apply Z.eqb_eq in H429 as ->. apply IH. by apply Hcool. }
    destruct (status =? 400) eqn:H400.
    { apply Z.eqb_eq in H400 as ->. exists a. rewrite Hr. simpl. auto. }
    destruct (status =? 504) eqn:H504.
    { apply IH, Hback; [done|]. rewrite Hr. simpl.
      by rewrite H429, H400, H504. }
    apply Z.eqb_neq in H429, H400, H504.
    exists a. rewrite Hr. simpl. split; [done|]. right. done.
  - apply IH, Hback; [done|]. by rewrite Hr.
Qed.

Lemma sent_requests cursor limit a st :
  requests (sent cursor limit a st)
  = requests st ++ [requestOf cursor limit a st].
Proof.
  rewrite sent_eq. cbn [requests record elapse]. by rewrite atStart_requests.
Qed.

Lemma sent_last cursor limit a st :
  last (requests (sent cursor limit a st)) = Some (requestOf cursor limit a st).
Proof. rewrite sent_requests. apply last_snoc. Qed.

Lemma sent_clock cursor limit a st :
  now (sent cursor limit a st) = rq_end (requestOf cursor limit a st)
  /\ lastRequestTime (sent cursor limit a st)
     = rq_start (requestOf cursor limit a st)
  /\ rq_start (requestOf cursor limit a st)
     <= rq_end (requestOf cursor limit a st)
  /\ now st <= rq_start (requestOf cursor limit a st)
  /\ lastRequestTime st + MIN_DELAY_MS
     <= rq_start (requestOf cursor limit a st).
Proof.
  rewrite sent_eq. destruct (atStart_now a st) as (Hnow & Hgap & Hlrt).
  cbn [now lastRequestTime record elapse requestOf Api.requestOf rq_start
       rq_end].
  rewrite Hlrt. lia.
Qed.

(** *** The throttle *)





(** *** The cooldown after a 429 *)






(** *** The restart after a 400 *)

Variable pause : Z.

Lemma sent_restart cursor limit a st :
  restart_ok pause cursor st ->
  justSettled (restarted pause) cursor a (sent cursor limit a st).
Proof.
  intros [Hadj Hlast].
  destruct (sent_clock cursor limit a st) as (Hnow & _ & _ & Hstart & _).
  split.
  - rewrite sent_requests. apply adjacent_snoc; [done|].
    intros x Hx ra Hra. destruct (Hlast x ra Hx Hra) as [Hc Hp].
    split; [done | lia].
  - eexists. split; [apply sent_last|]. done.
Qed.

Lemma retrying_restart cursor a st st' :
  requests st' = requests st ->
  justSettled (restarted pause) cursor a st ->
  retryable (a_response a) = true ->
  restart_ok pause cursor st'.
Proof.
  intros Heq (Hadj & r & Hr & Hresp & _) Ha. rewrite <- Heq in Hadj, Hr.
  split; [done|].
  intros r' ra Hr' Hra. rewrite Hr in Hr'. injection Hr' as <-.
  rewrite Hresp in Hra. rewrite Hra in Ha. done.
Qed.

Lemma transient_retryable r : transient r = true -> retryable r = true.
Proof. destruct r; simpl; [done| |done]. intros ->. apply orb_true_r. Qed.

(** Where [fetchEvents cursor] leaves off, the record still restarts after
    every 400; and if the latest response on record is a 400, the call has
    just thrown [BAD_CURSOR] for its cursor, or it sends no cursor and still
    waits. *)
Lemma fetchLoop_restart cursor limit retries script st :
  restart_ok pause cursor st ->
  match fetchLoop cursor limit retries script st with
  | (o, st', rest) =>
      adjacent (restarted pause) (requests st')
      /\ forall r retry_after,
           last (requests st') = Some r ->
           rq_response r = Failure 400 retry_after ->
           (o = Rejected (BadCursor cursor) /\ rq_end r = now st')
           \/ (o = Pending /\ cursorParam cursor = None
               /\ rq_end r + pause <= now st')
  end.
Proof.
  intros Hok.
  pose proof (fetchLoop_keeps (restart_ok pause cursor)
                (justSettled (restarted pause) cursor) cursor limit
                (sent_restart cursor limit)) as H.
  specialize (H (fun a st ra Hj Ha =>
    retrying_restart cursor a st (afterCooldown ra a st) eq_refl Hj
      ltac:(by rewrite Ha))).
  specialize (H (fun a st n Hj Ha =>
    retrying_restart cursor a st (afterBackoff n a st) eq_refl Hj
      (transient_retryable _ Ha))).
  specialize (H script retries st Hok).
  destruct (fetchLoop cursor limit retries script st) as [[o st'] rest].
  assert (forall a,
    justSettled (restarted pause) cursor a st' ->
    settles cursor (a_response a) o ->
    adjacent (restarted pause) (requests st')
    /\ forall r ra, last (requests st') = Some r ->
         rq_response r = Failure 400 ra ->
         (o = Rejected (BadCursor cursor) /\ rq_end r = now st')
         \/ (o = Pending /\ cursorParam cursor = None
             /\ rq_end r + pause <= now st')) as Hexit.
  { intros a (Hadj & r & Hr & Hresp & Hend & _) Hs. split; [done|].
    intros r' ra Hr' Hra. rewrite Hr in Hr'. injection Hr' as <-.
    rewrite <- Hresp, Hra in Hs. simpl in Hs.
    destruct Hs as [[_ ->]|(_ & ? & _)]; [by left | done]. }
  destruct o as [res|e|].
  - destruct H as (a & HJ & Hs). by apply (Hexit a).
  - destruct H as (a & HJ & Hs). by apply (Hexit a).
  - destruct H as [[Hadj Hlast] _]. split; [done|].
    intros r ra Hr Hra. right. split; [done|]. by eapply Hlast.
Qed.

(** *** The backoff *)

Lemma sent_backoffs cursor limit a st :
  backoffs (sent cursor limit a st) = backoffs st.
Proof. rewrite sent_eq. apply atStart_backoffs. Qed.

Lemma afterCooldown_trace retry_after a st :
  requests (afterCooldown retry_after a st) = requests st
  /\ backoffs (afterCooldown retry_after a st) = backoffs st.
Proof.
  split; [done|]. unfold backoffs. simpl. by rewrite omap_app, app_nil_r.
Qed.

Lemma afterBackoff_trace retries a st :
  requests (afterBackoff retries a st) = requests st
  /\ backoffs (afterBackoff retries a st)
     = backoffs st ++ [backoffWait retries].
Proof. split; [done|]. unfold backoffs. simpl. by rewrite omap_app. Qed.

Lemma fetchLoop_transient cursor limit retries a script st :
  transient (a_response a) = true ->
  fetchLoop cursor limit retries (a :: script) st
  = fetchLoop cursor limit (retries + 1) script
      (afterBackoff retries a (sent cursor limit a st)).
Proof.
  intros Ha. rewrite fetchLoop_cons.
  destruct (a_response a) as [body|status ra|]; [done| |done].
  simpl in Ha. apply andb_true_iff in Ha as [Ha H504].
  apply andb_true_iff in Ha as [H429 H400].
  apply negb_true_iff in H429, H400. by rewrite H429, H400, H504.
Qed.

Lemma fetchLoop_429 cursor limit retries a script st retry_after :
  a_response a = Failure 429 retry_after ->
  fetchLoop cursor limit retries (a :: script) st
  = fetchLoop cursor limit retries script
      (afterCooldown retry_after a (sent cursor limit a st)).
Proof. intros Ha. by rewrite fetchLoop_cons, Ha. Qed.

Lemma retryable_cases r :
  retryable r = true ->
  transient r = true
  \/ (transient r = false /\ exists retry_after, r = Failure 429 retry_after).
Proof.
  destruct r as [body|status ra|]; simpl; [done| |by left].
  destruct (status =? 429) eqn:H429; simpl.
  - apply Z.eqb_eq in H429 as ->. intros _. right. eauto.
  - intros ->. by left.
Qed.

Lemma backoffCount_cons a pre :
  backoffCount (a :: pre)
  = if transient (a_response a) then S (backoffCount pre)
    else backoffCount pre.
Proof. unfold backoffCount. simpl. by destruct (transient _). Qed.

(** Through a stretch of the script made of 429s, 504s and missing
    responses the loop keeps going: it sends one request per attempt, each
    for the same cursor, counts the 504s and missing responses in
    [retries], and waits [backoffWait] of the count before it after each
    of them. *)
Lemma fetchLoop_retries cursor limit pre rest retries st :
  Forall (fun a => retryable (a_response a) = true) pre ->
  exists st' news,
    fetchLoop cursor limit retries (pre ++ rest) st
    = fetchLoop cursor limit (retries + Z.of_nat (backoffCount pre)) rest st'
    /\ requests st' = requests st ++ news
    /\ map rq_cursor news = replicate (length pre) (cursorParam cursor)
    /\ map rq_response news = map a_response pre
    /\ backoffs st'
       = backoffs st
         ++ map (fun k => backoffWait (retries + Z.of_nat k))
              (seq 0 (backoffCount pre)).
Proof.
  revert retries st.
  induction pre as [|a pre IH]; intros retries st Hall.
  { exists st, []. simpl. rewrite Z.add_0_r, !app_nil_r. done. }
  apply Forall_cons in Hall as [Ha Hall].
  rewrite <- app_comm_cons, backoffCount_cons.
  destruct (retryable_cases _ Ha) as [Ht|[Ht [ra Hr]]]; rewrite Ht.
  - rewrite fetchLoop_transient by done.
    destruct (IH (retries + 1)
                (afterBackoff retries a (sent cursor limit a st)) Hall)
      as (st' & news & Hrun & Hreq & Hcur & Hresp & Hback).
    destruct (afterBackoff_trace retries a (sent cursor limit a st))
      as [Hreq1 Hback1].
    exists st', (requestOf cursor limit a st :: news).
    split.
    { rewrite Hrun. f_equal. lia. }
    split.
    { by rewrite Hreq, Hreq1, sent_requests, <- List.app_assoc. }
    split; [simpl; by rewrite Hcur|]. split; [simpl; by rewrite Hresp|].
    rewrite Hback, Hback1, sent_backoffs, <- List.app_assoc.
    f_equal. cbn [seq map app]. rewrite Z.add_0_r. f_equal.
    rewrite <- seq_shift, map_map.
    apply map_ext. intros k. f_equal. lia.
  - rewrite (fetchLoop_429 _ _ _ _ _ _ ra) by done.
    destruct (IH retries
                (afterCooldown ra a (sent cursor limit a st)) Hall)
      as (st' & news & Hrun & Hreq & Hcur & Hresp & Hback).
    destruct (afterCooldown_trace ra a (sent cursor limit a st))
      as [Hreq1 Hback1].
    exists st', (requestOf cursor limit a st :: news).
    split; [done|]. split.
    { by rewrite Hreq, Hreq1, sent_requests, <- List.app_assoc. }
    split; [simpl; by rewrite Hcur|]. split; [simpl; by rewrite Hresp|].
    by rewrite Hback, Hback1, sent_backoffs.
Qed.

End Fetch.

(** *** The claims about [fetchEvents] *)

(** C2, as amended.  When the requests of a call of [fetchEvents] are
    answered 504 or not at all, the call goes on with the same cursor,
    however many times in a row: after [n] such answers it has sent [n]
    requests, all for its cursor, its retry counter stands at [n], and the
    waits of its backoff timers were [min (1000 * 2^(k-1)) 16000]
    milliseconds before the [k]-th retry, for [k] from 1 to [n]. *)
Theorem fetchEvents_backs_off_and_retries
    MIN_DELAY_MS cursor limit pre rest st :
  Forall (fun a => transient (a_response a) = true) pre ->
  exists st' news,
    fetchEvents MIN_DELAY_MS cursor limit (pre ++ rest) st
    = fetchLoop MIN_DELAY_MS cursor limit (Z.of_nat (length pre)) rest st'
    /\ requests st' = requests st ++ news
    /\ map rq_cursor news = replicate (length pre) (cursorParam cursor)
    /\ map rq_response news = map a_response pre
    /\ backoffs st'
       = backoffs st
         ++ map (fun k => Z.min (1000 * 2 ^ Z.of_nat k) 16000)
              (seq 0 (length pre)).
Proof.
  intros Hall.
  assert (backoffCount pre = length pre) as Hcount.
  { induction Hall as [|a pre Ha _ IH]; [done|].
    rewrite backoffCount_cons, Ha, IH. done. }
  destruct (fetchLoop_retries MIN_DELAY_MS cursor limit pre rest 0 st)
    as (st' & news & Hrun & Hreq & Hcur & Hresp & Hback).
  { eapply Forall_impl; [exact Hall|]. intros a. apply transient_retryable. }
  rewrite Hcount in Hrun, Hback.
  exists st', news. repeat split; try done.
Qed.

Lemma fetchEvents_backs_off_and_retries_witness :
  exists st' news,
    fetchEvents 500 (Some "c1") 1000
      (Sample.threeTimeouts ++ Sample.singlePage) (Api.initial Sample.startTime)
    = fetchLoop 500 (Some "c1") 1000 3 Sample.singlePage st'
    /\ requests st' = news
    /\ map rq_cursor news = [Some "c1"; Some "c1"; Some "c1"]
    /\ backoffs st' = [1000; 2000; 4000].
Proof.
  destruct (fetchEvents_backs_off_and_retries 500 (Some "c1") 1000
              Sample.threeTimeouts Sample.singlePage (Api.initial Sample.startTime))
    as (st' & news & Hrun & Hreq & Hcur & _ & Hback).
  { repeat constructor. }
  exists st', news. split; [exact Hrun|]. split; [exact Hreq|].
  split; [exact Hcur | exact Hback].
Defined.

(** The scenario of the specification: three 504s, then a page.  The call
    returns the page after four requests for the same cursor, having waited
    1 s, 2 s and 4 s. *)
Example fetchEvents_three_timeouts :
  let '(o, st', rest) :=
    fetchEvents 500 (Some "c1") 1000
      (Sample.threeTimeouts ++ Sample.singlePage) (Api.initial Sample.startTime) in
  o = Resolved (parseBody (Sample.page Sample.abc None false))
  /\ rest = []
  /\ map rq_cursor (requests st')
     = [Some "c1"; Some "c1"; Some "c1"; Some "c1"]
  /\ sleeps st' = [(Backoff, 1000); (Backoff, 2000); (Backoff, 4000)].
Proof. vm_compute. repeat split. Qed.

(** A 429 with [retry-after: 3], then a page, with the default delay of
    500 ms: the second request asks for the same cursor and starts 6.5 s
    after the 429 came in, the 3 s of the cooldown timer and then the
    throttle, which counts from [lastRequestTime] set 3 s ahead. *)
Example fetchEvents_rate_limited :
  let '(o, st', rest) :=
    fetchEvents 500 (Some "c1") 1000
      (Sample.attempt (Failure 429 (Some 3%N)) :: Sample.singlePage)
      (Api.initial Sample.startTime) in
  o = Resolved (parseBody (Sample.page Sample.abc None false))
  /\ map (fun r => (rq_cursor r, rq_start r - Sample.startTime,
                    rq_end r - Sample.startTime)) (requests st')
     = [(Some "c1", 0, 120); (Some "c1", 6620, 6740)]
  /\ sleeps st' = [(Cooldown, 3000); (Throttle, 3500)].
Proof. vm_compute. repeat split. Qed.

(** C2 as stated fails for a 5xx other than 504: answered 503,
    [fetchEvents] throws after that one request, without a backoff and
    without touching the rest of the script. *)
Lemma fetchEvents_503_not_retried :
  let '(o, st', rest) :=
    fetchEvents 500 (Some "c1") 1000
      (Sample.attempt (Failure 503 None) :: Sample.singlePage)
      (Api.initial Sample.startTime) in
  o = Rejected (RequestFailed 503)
  /\ rest = Sample.singlePage
  /\ length (requests st') = 1%nat
  /\ sleeps st' = [].
Proof. vm_compute. repeat split. Qed.

End ApiFacts.

(** ** The pipeline *)

Module PipelineFacts.
Import Db Api Pipeline ApiFacts.

Lemma later_refl st : later st st.
Proof. unfold later. repeat split; lia. Qed.

Lemma later_elapse ms st : 0 <= ms -> later st (elapse ms st).
Proof. intros H. unfold later. simpl. repeat split; lia. Qed.

Lemma message_BadCursor cursor :
  String.prefix "BAD_CURSOR" (message (BadCursor cursor)) = true.
Proof. reflexivity. Qed.

Lemma message_RequestFailed status :
  String.prefix "BAD_CURSOR" (message (RequestFailed status)) = false.
Proof. reflexivity. Qed.

Section Run.

Variable toISOString : Z -> string.
Variable MIN_DELAY_MS : Z.
Variable PAGE_SIZE : Z.

Local Abbreviation step := (step toISOString MIN_DELAY_MS PAGE_SIZE).
Local Abbreviation run := (run toISOString MIN_DELAY_MS PAGE_SIZE).
Local Abbreviation moved := (moved MIN_DELAY_MS PAGE_SIZE).
Local Abbreviation fetcher := (fetcher MIN_DELAY_MS PAGE_SIZE).

(** *** Steps as moves of the fetching side *)

Lemma fetcher_moved st : moved st (fetcher st).
Proof.
  unfold Pipeline.fetcher.
  destruct (fetcherAt st) as [|cursor|] eqn:Hat.
  - destruct (fetchQueue st) as [|c q] eqn:Hq.
    + destruct (allFetched st); left; unfold upcoming; simpl;
        rewrite Hat, Hq.
      * split; [apply later_refl | done].
      * split; [by apply later_elapse | done].
    + left. unfold upcoming. simpl. rewrite Hat, Hq.
      split; [apply later_refl | done].
  - destruct (fetchEvents MIN_DELAY_MS cursor PAGE_SIZE (remote st) (api st))
      as [[o api1] rem] eqn:Hfetch.
    right. exists cursor, o, api1. split; [done|].
    destruct o as [res|[c|status]|].
    + destruct (hasMore res && truthy (nextCursor res)) eqn:Hmore;
        unfold upcoming; simpl; rewrite ?Hmore;
        (split; [done|]); (split; [apply later_refl|]);
        (split; [lia|]); by rewrite ?app_nil_r.
    + rewrite message_BadCursor. unfold upcoming. simpl.
      split; [done|]. split; [by apply later_elapse|]. split; [lia | done].
    + rewrite message_RequestFailed. unfold upcoming. simpl.
      split; [done|]. split; [by apply later_elapse|]. split; [lia|].
      destruct cursor; by rewrite ?app_nil_r.
    + unfold upcoming. simpl.
      split; [done|]. split; [apply later_refl|]. split; [lia | done].
  - left. split; [apply later_refl | done].
Qed.

Lemma writer_moved f save_fails st :
  moved st (writer toISOString f save_fails st).
Proof.
  left. unfold writer, upcoming.
  destruct (writerAt st) as [|batch|].
  - destruct (writeQueue st); simpl; (split; [apply later_refl | done]).
  - destruct (bulkInsertEvents _ _ _ _) as [[[n|] db']|]; simpl;
      (split; [apply later_refl | done]).
  - split; [apply later_refl | done].
Qed.

Lemma step_moved st a : moved st (step st a).
Proof.
  destruct a as [|f save_fails|ms]; simpl.
  - apply fetcher_moved.
  - apply writer_moved.
  - left. unfold upcoming. simpl. split; [apply later_elapse; lia | done].
Qed.

(** An invariant of the steps is an invariant of the runs. *)
Lemma run_invariant (I : Pipeline.State -> Prop) :
  (forall st a, I st -> I (step st a)) ->
  forall schedule st, I st -> I (run schedule st).
Proof.
  intros Hstep schedule.
  induction schedule as [|a schedule IH]; intros st HI; [done|].
  simpl. apply IH, Hstep, HI.
Qed.


(** *** The throttle *)



(** *** The cooldown after a 429 *)



(** *** The restart after a 400 *)

Lemma requeued_length cursor o : (length (requeued cursor o) <= 1)%nat.
Proof.
  destruct o as [res|[c|status]|]; simpl; [|lia| |lia].
  - destruct (_ && _); simpl; lia.
  - destruct cursor; simpl; lia.
Qed.

Lemma step_restart_inv st a : restart_inv st -> restart_inv (step st a).
Proof.
  intros (Hadj & Hlen & Hlast). unfold restart_inv.
  destruct (step_moved st a)
    as [((Hreq & _ & _ & Hnow) & _ & Hup)
       |(cursor & o & api1 & Hat & Hfetch & (Hreq & _ & _ & Hnow) & Hpause
         & Hup)].
  - rewrite Hreq, Hup. split; [done|]. split; [done|].
    intros r ra Hr Hra. destruct (Hlast r ra Hr Hra) as [Hc Ht].
    split; [done | lia].
  - assert (upcoming st = cursor :: fetchQueue st) as Hup0.
    { unfold upcoming. by rewrite Hat. }
    assert (fetchQueue st = []) as Hq.
    { rewrite Hup0 in Hlen. simpl in Hlen.
      destruct (fetchQueue st); [done | simpl in Hlen; lia]. }
    assert (restart_ok 5000 cursor (api st)) as Hok.
    { split; [done|]. intros r ra Hr Hra.
      destruct (Hlast r ra Hr Hra) as [(c & Hc & Hnone) Ht].
      rewrite Hup0, Hq in Hc. by injection Hc as <-. }
    pose proof (fetchLoop_restart MIN_DELAY_MS 5000 cursor PAGE_SIZE 0
                  (remote st) (api st) Hok) as H.
    unfold fetchEvents in Hfetch. rewrite Hfetch in H.
    destruct H as [Hadj1 Hlast1].
    rewrite Hreq, Hup, Hq. split; [done|]. split.
    { destruct o; cbn [app]; [apply requeued_length..|simpl; lia]. }
    intros r ra Hr Hra.
    destruct (Hlast1 r ra Hr Hra) as [[-> Hend]|(-> & Hnone & Ht)].
    + simpl in Hpause. split; [|lia]. by exists None.
    + split; [|lia]. by exists cursor.
Qed.

(** *** The checkpoint row *)

Lemma primaryPath_state events f db db' :
  primaryPath toISOString events f db = inl db' ->
  db_state db' = db_state db.
Proof.
  unfold primaryPath, exec_begin, exec_create_staging, exec_copy, exec_merge,
    exec_commit, and_then, with_txn.
  intros H. repeat case_match; simplify_eq/=; done.
Qed.

(** [bulkInsertEvents] does not touch the checkpoint row. *)
Lemma bulkInsertEvents_state events f db r db' :
  bulkInsertEvents toISOString events f db = Some (r, db') ->
  db_state db' = db_state db.
Proof.
  unfold bulkInsertEvents. intros H.
  destruct (length events =? 0)%nat; [by simplify_eq|].
  destruct (f_connect f); [by simplify_eq|].
  destruct (primaryPath _ _ _ _) as [db1|dbx] eqn:Hp.
  - simplify_eq. by apply primaryPath_state in Hp.
  - apply DbFacts.primaryPath_failed in Hp as [_ Hst].
    destruct (DbFacts.fallbackInsert_spec toISOString events f
                (exec_rollback dbx))
      as (r' & d & rows & Hrun & _ & _ & Hst' & _).
    rewrite Hrun in H. simplify_eq. by rewrite Hst'.
Qed.

Lemma fetcher_db st : db (fetcher st) = db st.
Proof.
  unfold Pipeline.fetcher.
  destruct (fetcherAt st) as [|cursor|]; [| |done].
  - destruct (fetchQueue st); [|done]. by destruct (allFetched st).
  - destruct (fetchEvents _ _ _ _ _) as [[o api1] rem].
    destruct o as [res|e|]; [| |done].
    + by destruct (_ && _).
    + by destruct (String.prefix _ _).
Qed.

Lemma saveProgress_zero cursor fails db :
  checkpointCount (saveProgress cursor 0 fails db).2 = checkpointCount db.
Proof.
  unfold saveProgress, checkpointCount. destruct fails; simpl; [done|].
  destruct (db_state db); simpl; lia.
Qed.

(** No step changes the count of the checkpoint: the only writes to the
    checkpoint row are [saveProgress(lastCursor, 0)]. *)
Lemma step_checkpointCount st a :
  checkpointCount (db (step st a)) = checkpointCount (db st).
Proof.
  destruct a as [|f save_fails|ms]; simpl; [by rewrite fetcher_db| |done].
  unfold writer. destruct (writerAt st) as [|batch|]; [| |done].
  - by destruct (writeQueue st).
  - destruct (bulkInsertEvents _ _ _ _) as [[[n|] db']|] eqn:Hins; [| |done].
    + apply bulkInsertEvents_state in Hins. simpl.
      destruct (_ <? _); [rewrite saveProgress_zero|];
        unfold checkpointCount; by rewrite Hins.
    + apply bulkInsertEvents_state in Hins. simpl.
      unfold checkpointCount. by rewrite Hins.
Qed.

End Run.

(** However the process is scheduled and whatever fails, it leaves the
    count of the checkpoint where it found it. *)
Lemma checkpoint_count_never_moves toISOString MIN_DELAY_MS PAGE_SIZE
    m schedule script api0 db0 code db' api' :
  runIngestion toISOString MIN_DELAY_MS PAGE_SIZE m schedule script api0 db0
  = Some (code, db', api') ->
  checkpointCount db' = checkpointCount db0.
Proof.
  unfold runIngestion, boot, initDb, getTotalProcessed, getCursor.
  destruct (init_fails m); simpl; [intros; by simplify_eq|].
  destruct (total_fails m); simpl; [intros; simplify_eq|].
  { unfold checkpointCount. simpl. by destruct (db_state db0). }
  destruct (cursor_fails m); simpl; [intros; simplify_eq|].
  { unfold checkpointCount. simpl. by destruct (db_state db0). }
  match goal with
  | |- context [Pipeline.run _ _ _ _ ?s] => set (st0 := s)
  end.
  assert (checkpointCount (db st0) = checkpointCount db0) as H0.
  { unfold checkpointCount. simpl. by destruct (db_state db0). }
  pose proof (run_invariant toISOString MIN_DELAY_MS PAGE_SIZE
                (fun st => checkpointCount (db st) = checkpointCount db0))
    as Hinv.
  specialize (Hinv (fun st a H =>
    eq_trans (step_checkpointCount toISOString MIN_DELAY_MS PAGE_SIZE st a) H)
    schedule st0 H0).
  destruct (finished _); [|done].
  unfold finish. intros H.
  destruct (count_fails m); simplify_eq;
    unfold checkpointCount in *; simpl;
    fold (checkpointCount
            (saveProgress
               (lastCursor (Pipeline.run toISOString MIN_DELAY_MS PAGE_SIZE
                              schedule st0))
               0 (final_save_fails m)
               (db (Pipeline.run toISOString MIN_DELAY_MS PAGE_SIZE
                      schedule st0))).2);
    by rewrite saveProgress_zero.
Qed.

(** *** The claims about the pipeline *)



(** C9.  A request answered 400 makes [fetchEvents] throw the error
    [BAD_CURSOR:<cursor>] for the cursor it was called with; the fetcher
    takes it as a reset, not as a failure of the process: it clears
    [lastCursor], queues the absent cursor, pauses 5 s and goes back to the
    top of its loop.  So in every run of the process the request that
    follows a 400 carries no cursor and starts at least 5 s later. *)
Theorem stale_cursor_restarts_chain toISOString MIN_DELAY_MS PAGE_SIZE
    resumeCursor existing script t0 db0 schedule :
  (forall cursor limit retries a rest st retry_after,
      a_response a = Failure 400 retry_after ->
      fetchLoop MIN_DELAY_MS cursor limit retries (a :: rest) st
      = (Rejected (BadCursor cursor), sent MIN_DELAY_MS cursor limit a st,
         rest)
      /\ message (BadCursor cursor) = "BAD_CURSOR:" +:+ showCursor cursor)
  /\ (forall st cursor api1 rest,
        fetcherAt st = FAwaitFetch cursor ->
        fetchEvents MIN_DELAY_MS cursor PAGE_SIZE (remote st) (api st)
        = (Rejected (BadCursor cursor), api1, rest) ->
        fetcherAt (fetcher MIN_DELAY_MS PAGE_SIZE st) = FTop
        /\ fetchQueue (fetcher MIN_DELAY_MS PAGE_SIZE st)
           = fetchQueue st ++ [None]
        /\ lastCursor (fetcher MIN_DELAY_MS PAGE_SIZE st) = None
        /\ api (fetcher MIN_DELAY_MS PAGE_SIZE st) = elapse 5000 api1)
  /\ adjacent (restarted 5000)
       (requests (api (run toISOString MIN_DELAY_MS PAGE_SIZE schedule
                         (start resumeCursor existing script (Api.initial t0)
                            db0)))).
Proof.
  split; [|split].
  - intros cursor limit retries a rest st ra Ha.
    by rewrite fetchLoop_cons, Ha.
  - intros st cursor api1 rest Hat Hfetch.
    unfold fetcher. by rewrite Hat, Hfetch.
  - apply (run_invariant toISOString MIN_DELAY_MS PAGE_SIZE restart_inv).
    + apply step_restart_inv.
    + split; [apply adjacent_nil|]. split; [done|]. by intros r ra Hr.
Qed.

Lemma stale_cursor_restarts_chain_witness :
  let st := Sample.awaitingC1
              (Sample.attempt (Failure 400 None) :: Sample.singlePage) in
  fetchLoop 500 (Some "c1") 1000 0
    (Sample.attempt (Failure 400 None) :: Sample.singlePage)
    (Api.initial Sample.startTime)
  = (Rejected (BadCursor (Some "c1")),
     sent 500 (Some "c1") 1000 (Sample.attempt (Failure 400 None))
       (Api.initial Sample.startTime),
     Sample.singlePage)
  /\ fetcherAt (fetcher 500 1000 st) = FTop
  /\ fetchQueue (fetcher 500 1000 st) = [None].
Proof.
  pose proof (stale_cursor_restarts_chain Sample.isoAtEpoch 500 1000
                None 0 [] 0 Sample.emptyDb []) as (H1 & H2 & _).
  split.
  - apply (H1 (Some "c1") 1000 0 (Sample.attempt (Failure 400 None))
             Sample.singlePage (Api.initial Sample.startTime) None eq_refl).
  - edestruct (H2 (Sample.awaitingC1
                     (Sample.attempt (Failure 400 None) :: Sample.singlePage))
                 (Some "c1")) as (Ha & Hb & _); [reflexivity..|].
    split; [exact Ha | exact Hb].
Defined.




(** *** The single page, under every schedule *)

Lemma dom_insert_row (t : gmap string Row) r :
  dom (insert_row t r) = dom t ∪ {[r_id r]}.
Proof.
  unfold insert_row. destruct (t !! r_id r) eqn:Hr.
  - apply elem_of_dom_2 in Hr. set_solver.
  - rewrite dom_insert_L. set_solver.
Qed.

Lemma dom_insert_do_nothing rows (t : gmap string Row) :
  dom (insert_do_nothing rows t) = dom t ∪ list_to_set (map r_id rows).
Proof.
  unfold insert_do_nothing. revert t.
  induction rows as [|r rows IH]; intros t; simpl; [set_solver|].
  rewrite IH, dom_insert_row. set_solver.
Qed.

Lemma fetchEvents_singlePage MIN_DELAY_MS cursor PAGE_SIZE st :
  fetchEvents MIN_DELAY_MS cursor PAGE_SIZE Sample.singlePage st
  = (Resolved {| data := Sample.abc; hasMore := false; nextCursor := None |},
     sent MIN_DELAY_MS cursor PAGE_SIZE
       (Sample.attempt (Success (Sample.page Sample.abc None false))) st,
     []).
Proof. reflexivity. Qed.

Lemma saveProgress_null cursor fails db :
  cursor = None -> db_state db = Some initial_state ->
  db_state (saveProgress cursor 0 fails db).2 = Some initial_state
  /\ db_events (saveProgress cursor 0 fails db).2 = db_events db.
Proof.
  intros -> Hst. unfold saveProgress. destruct fails; simpl; [done|].
  by rewrite Hst.
Qed.

Section OnePage.

Variable toISOString : Z -> string.
Hypothesis toISOString_plain : forall ms, plain (toISOString ms) = true.
Variable MIN_DELAY_MS : Z.
Variable PAGE_SIZE : Z.

Lemma abc_ids rows :
  (forall x, x ∈ rows -> x ∈ map (valuesOf toISOString) Sample.abc) ->
  list_to_set (map r_id rows) ⊆ Sample.abcIds.
Proof.
  intros Hsub k Hk. apply elem_of_list_to_set, list_elem_of_In in Hk.
  apply in_map_iff in Hk as (r & <- & Hr).
  apply list_elem_of_In, Hsub in Hr. vm_compute in Hr.
  unfold Sample.abcIds.
  repeat (apply elem_of_cons in Hr as [->|Hr]; [set_solver|]).
  by apply elem_of_nil in Hr.
Qed.

Lemma abc_all_ids :
  list_to_set (map r_id (map (valuesOf toISOString) Sample.abc))
  = Sample.abcIds.
Proof. unfold Sample.abcIds. simpl. set_solver. Qed.

Lemma fetcher_onePage_inv st :
  Sample.onePage_inv st ->
  Sample.onePage_inv (fetcher MIN_DELAY_MS PAGE_SIZE st).
Proof.
  destruct st as [fq wq af lc tot fat wat ap rem d].
  unfold Sample.onePage_inv, upcoming, fetcher. simpl.
  intros (Hlc & Hst & Hdom & [(Hrem & Hup & Hnd & Haf & Hwq & Hwat)|Hdone]).
  - subst. destruct fat as [|c|]; [| |done].
    + subst fq. simpl. repeat split; try done. left. done.
    + injection Hup as -> ->. rewrite fetchEvents_singlePage. simpl.
      repeat split; try done. right. repeat split; try done. left. done.
  - destruct Hdone as (Hrem & -> & Hrest). simpl. repeat split; try done.
    right. done.
Qed.

Lemma writer_onePage_inv f save_fails st :
  Sample.onePage_inv st ->
  Sample.onePage_inv (writer toISOString f save_fails st).
Proof.
  destruct st as [fq wq af lc tot fat wat ap rem d].
  unfold Sample.onePage_inv, upcoming, writer. simpl.
  intros (Hlc & Hst & Hdom & [(Hrem & Hup & Hnd & Haf & Hwq & Hwat)|Hdone]).
  - subst. simpl. repeat split; try done. left. done.
  - destruct Hdone as (Hrem & Hfat & Hfq & Haf
                       & [[Hwq Hwat]|[[Hwq Hwat]|(Hwq & Hwat & Hall)]]);
      subst; simpl.
    + repeat split; try done. right. repeat split; try done. right. by left.
    + destruct (DbFacts.bulkInsertEvents_spec toISOString toISOString_plain
                  Sample.abc f d)
        as (r & d' & rows & Hrun & Hev & Hsub & Hst' & Hret & _).
      change (events Sample.abcBatch) with Sample.abc. rewrite Hrun.
      assert (dom (db_events d') ⊆ Sample.abcIds) as Hdom'.
      { rewrite Hev, dom_insert_do_nothing. pose proof (abc_ids rows Hsub).
        set_solver. }
      destruct r as [n|]; simpl.
      * destruct (Hret n eq_refl) as [_ ->].
        assert (dom (db_events d') = Sample.abcIds) as Hall.
        { rewrite Hev, dom_insert_do_nothing, abc_all_ids. set_solver. }
        rewrite Hst in Hst'.
        destruct (saveProgress_null None save_fails d' eq_refl Hst')
          as [Hs He].
        destruct (_ <? _); simpl; rewrite ?Hs, ?He;
          (repeat split; try done);
          right; repeat split; try done; right; right; auto.
      * rewrite Hst in Hst'. repeat split; try done.
        right. repeat split; try done. by left.
    + destruct Hwat as [-> | ->]; simpl; repeat split; try done;
        right; repeat split; try done; right; right; auto.
Qed.

Lemma step_onePage_inv st a :
  Sample.onePage_inv st ->
  Sample.onePage_inv (step toISOString MIN_DELAY_MS PAGE_SIZE st a).
Proof.
  destruct a as [|f save_fails|ms]; simpl.
  - apply fetcher_onePage_inv.
  - apply writer_onePage_inv.
  - destruct st. unfold Sample.onePage_inv, upcoming. simpl. done.
Qed.

(** Fresh database, the single page: however the coroutines are scheduled,
    whatever the delays and whatever fails in the database on the way, if
    the process exits with code 0 then [events] holds exactly three rows,
    the cursor of the checkpoint is null and its count is 0. *)
Lemma fresh_single_page_any_schedule m schedule t0 db' api' :
  runIngestion toISOString MIN_DELAY_MS PAGE_SIZE m schedule
    Sample.singlePage (Api.initial t0) Sample.freshDb = Some (0, db', api') ->
  size (db_events db') = 3%nat
  /\ db_state db' = Some {| next_cursor := None; total_processed := 0 |}.
Proof.
  unfold runIngestion, boot, initDb, getTotalProcessed, getCursor.
  destruct (init_fails m); simpl; [done|].
  destruct (total_fails m); simpl; [done|].
  destruct (cursor_fails m); simpl; [done|].
  match goal with
  | |- context [Pipeline.run _ _ _ _ ?s] => set (st0 := s)
  end.
  assert (Sample.onePage_inv st0) as H0.
  { unfold Sample.onePage_inv, upcoming. simpl.
    repeat split; try done. left. done. }
  pose proof (run_invariant toISOString MIN_DELAY_MS PAGE_SIZE
                Sample.onePage_inv step_onePage_inv schedule st0 H0) as Hinv.
  destruct (Pipeline.run _ _ _ _ _) as [fq wq af lc tot fat wat ap rem d].
  unfold finished, finish. simpl.
  destruct fat; try done. destruct wat; try done.
  destruct Hinv as (Hlc & Hst & _ & [(_ & _ & Hnd & _)|Hdone]); [done|].
  simpl in *.
  destruct Hdone as (_ & _ & _ & _ & [[_ ?]|[[_ ?]|(_ & _ & Hall)]]);
    [done..|].
  destruct (saveProgress_null lc (final_save_fails m) d Hlc Hst) as [Hs He].
  destruct (count_fails m); [done|]. intros H. simplify_eq. simpl.
  rewrite Hs, He. split; [|done].
  rewrite <- size_dom, Hall. reflexivity.
Qed.

End OnePage.

(** C1 on the code.  Fresh database, one page with the events [a], [b],
    [c] and [hasMore = false]: the process exits with code 0, the [events]
    table holds three rows and the cursor of the checkpoint is null, but
    its [total_processed] is still 0, not 3. *)
Theorem fresh_single_page_run :
  match runIngestion Sample.isoAtEpoch 500 1000 no_main_faults
          Sample.onePageSchedule Sample.singlePage
          (Api.initial Sample.startTime) Sample.freshDb with
  | Some (code, db', _) =>
      code = 0
      /\ size (db_events db') = 3%nat
      /\ db_state db' = Some {| next_cursor := None; total_processed := 0 |}
      /\ List.filter isCheckpointWrite (db_log db') = [QUpdateState None 0]
  | None => False
  end.
Proof. vm_compute. repeat split. Qed.

End PipelineFacts.

(** * Further properties *)

(** ** db.ts and worker.ts *)

Module DbMore.
Import Db Worker Notions DbFacts.

(** *** [escapeForCopy] *)

Lemma mentions_app c s1 s2 :
  mentions c (s1 +:+ s2) = mentions c s1 || mentions c s2.
Proof.
  induction s1 as [|a s1 IH]; [done|].
  rewrite app_cons. simpl. by rewrite IH, orb_assoc.
Qed.

Lemma escapeChar_no_raw a :
  mentions TAB (escapeChar a) = false
  /\ mentions LF (escapeChar a) = false
  /\ mentions CR (escapeChar a) = false.
Proof.
  unfold escapeChar.
  destruct (Ascii.eqb a BSL) eqn:Hb; [done|].
  destruct (Ascii.eqb a LF) eqn:Hl; [done|].
  destruct (Ascii.eqb a CR) eqn:Hc; [done|].
  destruct (Ascii.eqb a TAB) eqn:Ht; [done|].
  simpl. by rewrite Ht, Hl, Hc.
Qed.

Lemma escapeChar_length a :
  (1 <= String.length (escapeChar a) <= 2)%nat.
Proof.
  unfold escapeChar. repeat (destruct (Ascii.eqb _ _)); simpl; lia.
Qed.

Lemma length_app s1 s2 :
  String.length (s1 +:+ s2) = (String.length s1 + String.length s2)%nat.
Proof.
  induction s1 as [|a s1 IH]; [done|]. rewrite app_cons. simpl. by rewrite IH.
Qed.

(** X1.  What [escapeForCopy] returns holds no raw tab, newline or carriage
    return, whatever the value, so a field can never break the column or
    row structure of the stream; it is at least as long as the value and at
    most twice as long. *)
Theorem escapeForCopy_no_raw_delimiter val :
  mentions TAB (escapeForCopy val) = false
  /\ mentions LF (escapeForCopy val) = false
  /\ mentions CR (escapeForCopy val) = false
  /\ (String.length val <= String.length (escapeForCopy val)
      <= 2 * String.length val)%nat.
Proof.
  induction val as [|a val (IHt & IHl & IHc & IHn)]; [by vm_compute|].
  rewrite escapeForCopy_cons, !mentions_app, length_app, IHt, IHl, IHc.
  destruct (escapeChar_no_raw a) as (-> & -> & ->).
  pose proof (escapeChar_length a). simpl String.length. repeat split; lia.
Qed.

(** X2.  [escapeForCopy] loses nothing: the reader of the stream gets the
    value back from the escaped field, so two values with the same escaped
    text are the same value. *)
Theorem escapeForCopy_injective val1 val2 :
  copy_read (escapeForCopy val1 +:+ newline) EmptyString [] []
  = Some [[val1]]
  /\ (escapeForCopy val1 = escapeForCopy val2 -> val1 = val2).
Proof.
  assert (forall v, copy_read (escapeForCopy v +:+ newline) EmptyString [] []
                    = Some [[v]]) as Hread.
  { intros v. rewrite copy_read_escaped. reflexivity. }
  split; [apply Hread|].
  intros Heq. pose proof (Hread val1) as H1. rewrite Heq, Hread in H1.
  by simplify_eq.
Qed.

Lemma escapeForCopy_injective_witness :
  copy_read (escapeForCopy (String TAB "x") +:+ newline) EmptyString [] []
  = Some [[String TAB "x"]]
  /\ String TAB "x" = String TAB "x".
Proof.
  destruct (escapeForCopy_injective (String TAB "x") (String TAB "x"))
    as [H1 H2].
  split; [exact H1 | exact (H2 eq_refl)].
Defined.

(** X3.  The stream [bulkInsertEvents] writes for a batch that is not empty
    is read by the server as one five-column row per event, in order, with
    exactly the values [fallbackInsert] sends for that event, whatever
    tabs, newlines, carriage returns and backslashes the values hold.  (The
    first hypothesis is about the runtime: [toISOString] emits no tab,
    newline or backslash.) *)
Theorem copy_stream_round_trip toISOString events :
  (forall ms, plain (toISOString ms) = true) ->
  events <> [] ->
  copy_rows (copyData toISOString events)
  = Some (map (valuesOf toISOString) events).
Proof. intros Hp Hne. by apply copy_rows_copyData. Qed.

Lemma copy_stream_round_trip_witness :
  copy_rows (copyData Sample.isoAtEpoch
               [Sample.event (String TAB (String BSL (String LF "x")));
                Sample.event "b"])
  = Some (map (valuesOf Sample.isoAtEpoch)
            [Sample.event (String TAB (String BSL (String LF "x")));
             Sample.event "b"]).
Proof.
  apply (copy_stream_round_trip Sample.isoAtEpoch);
    [intros ms; reflexivity | discriminate].
Defined.

(** *** What an insert leaves in the table *)

(** *** Rows already stored *)

Lemma insert_do_nothing_keeps rows (t : gmap string Row) id row :
  t !! id = Some row -> insert_do_nothing rows t !! id = Some row.
Proof. intros H. by rewrite insert_do_nothing_lookup, H. Qed.

Lemma insert_do_nothing_size rows (t : gmap string Row) :
  (size t <= size (insert_do_nothing rows t))%nat.
Proof.
  apply map_subseteq_size, map_subseteq_spec.
  intros id row. apply insert_do_nothing_keeps.
Qed.

Lemma primaryPath_merged toISOString events f db db' :
  primaryPath toISOString events f db = inl db' ->
  exists rows, db_events db' = insert_do_nothing rows (db_events db).
Proof.
  unfold primaryPath, exec_begin, exec_create_staging, exec_copy, exec_merge,
    exec_commit, and_then, with_txn.
  intros H. repeat case_match; simplify_eq/=; eexists; reflexivity.
Qed.

Lemma bulkInsertEvents_merged toISOString events f db r db' :
  bulkInsertEvents toISOString events f db = Some (r, db') ->
  exists rows, db_events db' = insert_do_nothing rows (db_events db).
Proof.
  unfold bulkInsertEvents. intros H.
  destruct (length events =? 0)%nat; [simplify_eq; by exists []|].
  destruct (f_connect f); [simplify_eq; by exists []|].
  destruct (primaryPath _ _ _ _) as [db1|dbx] eqn:Hp.
  - simplify_eq. by apply primaryPath_merged in Hp.
  - apply primaryPath_failed in Hp as [Hev _].
    destruct (fallbackInsert_spec toISOString events f (exec_rollback dbx))
      as (r' & d & rows & Hrun & Hev' & _).
    rewrite Hrun in H. simplify_eq. exists rows. rewrite Hev'. simpl.
    by rewrite Hev.
Qed.

(** X4.  Whatever happens in a call of [bulkInsertEvents] (either path, any
    failure, any outcome), no row that was in [events] before is changed or
    removed, the row count does not go down, and the checkpoint row is not
    touched. *)
Theorem bulkInsertEvents_keeps_rows toISOString events f db r db' :
  bulkInsertEvents toISOString events f db = Some (r, db') ->
  (forall id row,
      db_events db !! id = Some row -> db_events db' !! id = Some row)
  /\ (size (db_events db) <= size (db_events db'))%nat
  /\ db_state db' = db_state db.
Proof.
  intros Hrun.
  destruct (bulkInsertEvents_merged _ _ _ _ _ _ Hrun) as [rows ->].
  split; [|split].
  - intros id row. apply insert_do_nothing_keeps.
  - apply insert_do_nothing_size.
  - by eapply PipelineFacts.bulkInsertEvents_state.
Qed.

Lemma bulkInsertEvents_keeps_rows_witness :
  exists r db',
    bulkInsertEvents Sample.isoAtEpoch Sample.abc
      {| f_connect := false; f_primary := Some (StCommit, 0%nat);
         f_fallback := Some 0%nat |} Sample.freshDb = Some (r, db')
    /\ (size (db_events Sample.freshDb) <= size (db_events db'))%nat
    /\ db_state db' = db_state Sample.freshDb.
Proof.
  eexists _, _. split; [reflexivity|].
  edestruct (bulkInsertEvents_keeps_rows Sample.isoAtEpoch Sample.abc
               {| f_connect := false; f_primary := Some (StCommit, 0%nat);
                  f_fallback := Some 0%nat |} Sample.freshDb)
    as (_ & Hsize & Hst); [reflexivity|].
  split; [exact Hsize | exact Hst].
Defined.

(** *** The chunks of the fallback path *)

Lemma chunk_count_step (n : nat) :
  (0 < n)%nat -> ((n + 499) / 500 = S ((n - 500 + 499) / 500))%nat.
Proof.
  intros Hn. destruct (decide (n <= 500)%nat) as [Hle|Hgt].
  - replace (n - 500 + 499)%nat with 499%nat by lia.
    change (499 / 500)%nat with 0%nat.
    symmetry. apply (Nat.div_unique _ _ _ (n - 1)); lia.
  - replace (n + 499)%nat with (n - 500 + 499 + 1 * 500)%nat by lia.
    rewrite Nat.div_add by lia. lia.
Qed.

Section Chunks.

Variable toISOString : Z -> string.

(** *** The chunks of the fallback path *)

Lemma fallbackLoop_chunks events f fuel i inserted db n db' :
  fallbackLoop toISOString fuel events f i inserted db
  = Some (Returned n, db') ->
  exists chunks,
    db_log db' = db_log db ++ map QInsertChunk chunks
    /\ concat chunks = map (valuesOf toISOString) (drop i events)
    /\ Forall (fun c => (0 < length c <= CHUNK)%nat) chunks
    /\ length chunks = ((length events - i + 499) / 500)%nat.
Proof.
  revert i inserted db.
  induction fuel as [|fuel IH]; intros i inserted db Hrun; [done|].
  rewrite fallbackLoop_S in Hrun.
  destruct (i <? length events)%nat eqn:Hi.
  - apply Nat.ltb_lt in Hi. cbv zeta in Hrun.
    destruct (decide _) as [|_]; [done|].
    apply IH in Hrun as (chunks & Hlog & Hcat & Hall & Hlen).
    exists (map (valuesOf toISOString) (slice i (i + CHUNK) events) :: chunks).
    split; [|split; [|split]].
    + rewrite Hlog. simpl. by rewrite <- List.app_assoc.
    + simpl. by rewrite Hcat, <- map_app, slice_drop.
    + constructor; [|done].
      rewrite length_map, slice_length. unfold CHUNK. lia.
    + cbn [length]. rewrite Hlen, (chunk_count_step (length events - i)) by lia.
      unfold CHUNK. do 3 f_equal. lia.
  - apply Nat.ltb_ge in Hi. simplify_eq. exists [].
    rewrite drop_ge by done. simpl. rewrite app_nil_r.
    repeat split; try done.
    replace (length events - i + 499)%nat with 499%nat by lia. done.
Qed.

Lemma fallbackLoop_fails events f j :
  f_fallback f = Some j -> (j * CHUNK < length events)%nat ->
  forall fuel k inserted db,
    (k <= j)%nat -> (length events - k * CHUNK < fuel)%nat ->
    exists db',
      fallbackLoop toISOString fuel events f (k * CHUNK) inserted db
      = Some (Threw, db')
      /\ db_events db'
         = insert_do_nothing
             (map (valuesOf toISOString)
                (take ((j - k) * CHUNK) (drop (k * CHUNK) events)))
             (db_events db).
Proof.
  intros Hf Hj fuel.
  induction fuel as [|fuel IH]; intros k inserted db Hk Hfuel; [lia|].
  rewrite fallbackLoop_S.
  assert (k * CHUNK < length events)%nat as Hi by (unfold CHUNK in *; lia).
  apply Nat.ltb_lt in Hi as Hi'. rewrite Hi'. cbv zeta.
  rewrite Nat.div_mul by (unfold CHUNK; lia). rewrite Hf.
  destruct (decide (Some j = Some k)) as [Heq|Hne].
  - simplify_eq. eexists. split; [done|].
    by rewrite Nat.sub_diag.
  - assert (k < j)%nat as Hlt.
    { destruct (decide (k = j)); [by subst | lia]. }
    assert (S k * CHUNK = k * CHUNK + CHUNK)%nat as Heq by lia.
    edestruct (IH (S k)) as (db' & Hrun & Hev); [lia | | ].
    { unfold CHUNK in *. lia. }
    rewrite Heq in Hrun, Hev.
    exists db'. split; [exact Hrun|]. rewrite Hev.
    unfold exec_insert_chunk, set_events, log. cbn [db_events].
    rewrite <- insert_do_nothing_app, <- map_app. do 2 f_equal.
    unfold slice.
    replace (k * CHUNK + CHUNK - k * CHUNK)%nat with CHUNK by lia.
    rewrite <- drop_drop, take_take_drop. f_equal. unfold CHUNK. lia.
Qed.


End Chunks.

(** X5.  When [fallbackInsert] returns, the statements it has sent are
    multi-row inserts whose rows, put end to end, are the values of the
    batch in order; each carries between 1 and 500 rows, and there are
    [ceil (n / 500)] of them for a batch of [n] events. *)
Theorem fallbackInsert_chunks toISOString events f db n db' :
  fallbackInsert toISOString events f db = Some (Returned n, db') ->
  exists chunks,
    db_log db' = db_log db ++ map QInsertChunk chunks
    /\ concat chunks = map (valuesOf toISOString) events
    /\ Forall (fun c => (0 < length c <= 500)%nat) chunks
    /\ length chunks = ((length events + 499) / 500)%nat.
Proof.
  intros Hrun. apply fallbackLoop_chunks in Hrun as (chunks & H1 & H2 & H3 & H4).
  exists chunks. rewrite Nat.sub_0_r in H4. done.
Qed.

Lemma fallbackInsert_chunks_witness :
  exists db' chunks,
    fallbackInsert Sample.isoAtEpoch Sample.abc no_faults Sample.freshDb
    = Some (Returned 3%nat, db')
    /\ db_log db' = db_log Sample.freshDb ++ map QInsertChunk chunks
    /\ length chunks = 1%nat.
Proof.
  eexists _. 
  edestruct (fallbackInsert_chunks Sample.isoAtEpoch Sample.abc no_faults
               Sample.freshDb) as (chunks & Hlog & _ & _ & Hlen);
    [reflexivity|].
  exists chunks. split; [reflexivity|]. split; [exact Hlog | exact Hlen].
Defined.

(** A failing chunk stops the loop where it stands. *)
Lemma fallbackInsert_stops_at toISOString events f j db :
  f_fallback f = Some j -> (j * 500 < length events)%nat ->
  exists db',
    fallbackInsert toISOString events f db = Some (Threw, db')
    /\ db_events db'
       = insert_do_nothing
           (map (valuesOf toISOString) (take (j * 500) events))
           (db_events db).
Proof.
  intros Hf Hj. unfold fallbackInsert.
  destruct (fallbackLoop_fails toISOString events f j Hf Hj
              (S (length events)) 0 0 db) as (db' & Hrun & Hev);
    [lia | simpl; lia |].
  exists db'. split; [exact Hrun|].
  rewrite Hev. by rewrite Nat.sub_0_r.
Qed.

(** X6.  [fallbackInsert] is not atomic: when the query of chunk [j]
    fails, the call throws and the chunks before it stay committed, so
    [events] has been offered exactly the first [500 * j] events of the
    batch. *)
Theorem fallbackInsert_partial toISOString events f j db :
  f_fallback f = Some j -> (j * 500 < length events)%nat ->
  exists db',
    fallbackInsert toISOString events f db = Some (Threw, db')
    /\ db_events db'
       = insert_do_nothing
           (map (valuesOf toISOString) (take (j * 500) events))
           (db_events db).
Proof. apply fallbackInsert_stops_at. Qed.

Lemma fallbackInsert_partial_witness :
  exists db',
    fallbackInsert Sample.isoAtEpoch Sample.abc
      {| f_connect := false; f_primary := None; f_fallback := Some 0%nat |}
      Sample.freshDb = Some (Threw, db')
    /\ db_events db' = db_events Sample.freshDb.
Proof.
  destruct (fallbackInsert_partial Sample.isoAtEpoch Sample.abc
              {| f_connect := false; f_primary := None;
                 f_fallback := Some 0%nat |} 0 Sample.freshDb eq_refl)
    as (db' & Hrun & Hev); [simpl; lia|].
  exists db'. split; [exact Hrun | exact Hev].
Defined.



(** *** The checkpoint *)

(** *** The progress store *)





(** *** [processBatch] *)

(** X10.  [processBatch] always ends.  On an empty batch it returns without
    touching the database.  When it returns on a batch that is not empty,
    every event of the batch has its id in [events] and the checkpoint has
    the given cursor and a count raised by the length of the batch.  When
    it throws, the checkpoint is as it was: it is never advanced for a
    batch whose insert failed.  (The first hypothesis is about the runtime:
    [toISOString] emits no tab, newline or backslash.) *)
Theorem processBatch_checkpoints_after_insert
    toISOString events nextCursor f save_fails db :
  (forall ms, plain (toISOString ms) = true) ->
  exists r db',
    processBatch toISOString events nextCursor f save_fails db = Some (r, db')
    /\ (events = [] -> r = Returned tt /\ db' = db)
    /\ (r = Returned tt -> events <> [] ->
        (forall e, e ∈ events -> is_Some (db_events db' !! idOf e))
        /\ db_state db' = advanced nextCursor (length events) <$> db_state db)
    /\ (r = Threw -> db_state db' = db_state db).
Proof.
  intros Hp. unfold processBatch.
  destruct events as [|e es].
  { eexists _, _. split; [done|]. repeat split; done. }
  set (events := e :: es). simpl length.
  change (S (length es) =? 0)%nat with false. cbv iota.
  destruct (bulkInsertEvents_spec toISOString Hp events f db)
    as (r & db1 & rows & Hrun & Hev & _ & Hst & Hret & _).
  rewrite Hrun. destruct r as [n|].
  - destruct (Hret n eq_refl) as [-> ->].
    unfold saveProgress. destruct save_fails; simpl.
    + eexists _, _. split; [done|]. repeat split; try done.
    + eexists _, _. split; [done|]. split; [done|]. split; [|done].
      intros _ _. simpl. split.
      * intros x Hx. rewrite Hev.
        apply (insert_do_nothing_covers _ _ (valuesOf toISOString x)).
        apply list_elem_of_In, in_map. by apply list_elem_of_In.
      * rewrite Hst. by destruct (db_state db).
  - eexists _, _. split; [done|]. repeat split; done.
Qed.

Lemma processBatch_checkpoints_after_insert_witness :
  exists r db',
    processBatch Sample.isoAtEpoch Sample.abc (Some "c2") no_faults false
      Sample.freshDb = Some (r, db')
    /\ r = Returned tt
    /\ db_state db'
       = Some {| next_cursor := Some "c2"; total_processed := 3 |}.
Proof.
  destruct (processBatch_checkpoints_after_insert Sample.isoAtEpoch
              Sample.abc (Some "c2") no_faults false Sample.freshDb
              (fun ms => eq_refl))
    as (r & db' & Hrun & _ & Hret & _).
  exists r, db'. split; [exact Hrun|].
  assert (r = Returned tt) as Hr.
  { vm_compute in Hrun. by simplify_eq. }
  split; [exact Hr|]. exact (proj2 (Hret Hr ltac:(discriminate))).
Defined.

End DbMore.

(** ** Calls of [fetchEvents] *)

Module ApiMore.
Import Db Api Pipeline Notions ApiFacts PipelineFacts.

Section Fetch.

Variable MIN_DELAY_MS : Z.

Local Abbreviation sent := (sent MIN_DELAY_MS).
Local Abbreviation fetchLoop := (fetchLoop MIN_DELAY_MS).
Local Abbreviation requestOf := (requestOf MIN_DELAY_MS).

(** *** Two cooldowns after a 429 *)





(** *** One request at a time *)

Lemma sent_sequential cursor limit a st :
  sequential_ok st -> sequential_ok (sent cursor limit a st).
Proof.
  intros (Hadj & Hall & Hlast).
  destruct (sent_clock MIN_DELAY_MS cursor limit a st)
    as (Hnow & _ & Hle & Hstart & _).
  split; [|split].
  - rewrite sent_requests. apply adjacent_snoc; [done|].
    intros x Hx. pose proof (Hlast x Hx). unfold sequential. lia.
  - rewrite sent_requests. apply Forall_app. split; [done|].
    by constructor.
  - intros r Hr. rewrite sent_last in Hr. injection Hr as <-. lia.
Qed.

Lemma fetchLoop_sequential cursor limit retries script st :
  sequential_ok st ->
  sequential_ok (fetchLoop cursor limit retries script st).1.2.
Proof.
  intros Hok.
  pose proof (fetchLoop_keeps MIN_DELAY_MS sequential_ok
                (fun _ => sequential_ok) cursor limit
                (sent_sequential cursor limit)) as H.
  assert (forall st' st'', sequential_ok st' ->
            requests st'' = requests st' -> now st' <= now st'' ->
            sequential_ok st'') as Hlater.
  { intros st' st'' (Hadj & Hall & Hlast) Hreq Hnow.
    unfold sequential_ok. rewrite Hreq. split; [done|]. split; [done|].
    intros r Hr. pose proof (Hlast r Hr). lia. }
  specialize (H (fun a st ra Hj _ =>
    Hlater st (afterCooldown ra a st) Hj eq_refl ltac:(simpl; lia))).
  specialize (H (fun a st n Hj _ =>
    Hlater st (afterBackoff n a st) Hj eq_refl ltac:(simpl; lia))).
  specialize (H script retries st Hok).
  destruct (fetchLoop cursor limit retries script st) as [[o st'] rest].
  simpl. destruct o; [by destruct H as (? & ? & _)..|by destruct H].
Qed.

(** *** The timers *)




(** *** What ends a call *)

Lemma sent_afterRequest cursor limit before a st :
  atHead cursor limit before st ->
  afterRequest cursor limit before a (sent cursor limit a st).
Proof.
  intros (news & Hreq & Hfor & Hall).
  exists (news ++ [requestOf cursor limit a st]).
  split; [by rewrite sent_requests, Hreq, <- List.app_assoc|].
  split; [apply Forall_app; split; [done | by constructor]|].
  by exists news, (requestOf cursor limit a st).
Qed.

Lemma retry_atHead cursor limit before a st st' :
  requests st' = requests st ->
  afterRequest cursor limit before a st ->
  retryable (a_response a) = true ->
  atHead cursor limit before st'.
Proof.
  intros Heq (news & Hreq & Hfor & pre & r & -> & Hall & Hresp) Ha.
  exists (pre ++ [r]). rewrite Heq. split; [done|]. split; [done|].
  apply Forall_app. split; [done|]. constructor; [|done]. by rewrite Hresp.
Qed.

End Fetch.

(** What a call of [fetchEvents] has put on the record when it leaves
    off. *)
Lemma fetchEvents_leaves MIN_DELAY_MS cursor limit script st :
  let '(o, st', rest) := fetchEvents MIN_DELAY_MS cursor limit script st in
  exists news,
    requests st' = requests st ++ news
    /\ Forall (sentFor cursor limit) news
    /\ match o with
       | Pending =>
           rest = [] /\ Forall (fun r => retryable (rq_response r) = true) news
       | Resolved res =>
           exists body, endsWith news (Success body) /\ res = parseBody body
       | Rejected (BadCursor c) =>
           c = cursor /\ exists retry_after,
                           endsWith news (Failure 400 retry_after)
       | Rejected (RequestFailed status) =>
           status <> 429 /\ status <> 400 /\ status <> 504
           /\ exists retry_after, endsWith news (Failure status retry_after)
       end.
Proof.
  unfold fetchEvents.
  pose proof (fetchLoop_keeps MIN_DELAY_MS
                (atHead cursor limit (requests st))
                (afterRequest cursor limit (requests st)) cursor limit
                (sent_afterRequest MIN_DELAY_MS cursor limit (requests st)))
    as H.
  specialize (H (fun a s ra Hj Ha =>
    retry_atHead cursor limit (requests st) a s (afterCooldown ra a s)
      eq_refl Hj ltac:(by rewrite Ha))).
  specialize (H (fun a s n Hj Ha =>
    retry_atHead cursor limit (requests st) a s (afterBackoff n a s)
      eq_refl Hj (transient_retryable _ Ha))).
  specialize (H script 0 st).
  destruct (fetchLoop MIN_DELAY_MS cursor limit 0 script st)
    as [[o st'] rest].
  assert (atHead cursor limit (requests st) st) as H0.
  { exists []. by rewrite app_nil_r. }
  specialize (H H0).
  destruct o as [res|e|].
  - destruct H as (a & (news & Hreq & Hfor & Hend) & Hs).
    exists news. split; [done|]. split; [done|].
    destruct (a_response a) as [body|status ra|]; simpl in Hs;
      [|by destruct Hs as [[_ ?]|(_ & _ & _ & ?)]|done].
    injection Hs as ->. by exists body.
  - destruct H as (a & (news & Hreq & Hfor & Hend) & Hs).
    exists news. split; [done|]. split; [done|].
    destruct (a_response a) as [body|status ra|]; simpl in Hs; [done| |done].
    destruct Hs as [[-> Hs]|(H429 & H400 & H504 & Hs)]; injection Hs as ->.
    + split; [done|]. by exists ra.
    + repeat split; try done. by exists ra.
  - destruct H as [(news & Hreq & Hfor & Hall) ->]. by exists news.
Qed.


End ApiMore.

(** ** Requests and timers of a run *)

Module PipelineTiming.
Import Db Api Pipeline Notions ApiFacts PipelineFacts ApiMore.

Section Run.

Variable toISOString : Z -> string.
Variable MIN_DELAY_MS : Z.
Variable PAGE_SIZE : Z.

Local Abbreviation step := (step toISOString MIN_DELAY_MS PAGE_SIZE).
Local Abbreviation run := (run toISOString MIN_DELAY_MS PAGE_SIZE).


Lemma step_sequential_ok st a :
  sequential_ok (api st) -> sequential_ok (api (step st a)).
Proof.
  intros Hok.
  assert (forall s s', later s s' -> sequential_ok s -> sequential_ok s')
    as Hlater.
  { intros s s' (Hreq & _ & _ & Hnow) (Hadj & Hall & Hlast).
    unfold sequential_ok. rewrite Hreq. split; [done|]. split; [done|].
    intros r Hr. pose proof (Hlast r Hr). lia. }
  destruct (step_moved toISOString MIN_DELAY_MS PAGE_SIZE st a)
    as [(Hl & _)|(cursor & o & api1 & _ & Hfetch & Hl & _)].
  - by eapply Hlater.
  - eapply Hlater; [exact Hl|].
    pose proof (fetchLoop_sequential MIN_DELAY_MS cursor PAGE_SIZE 0
                  (remote st) (api st) Hok) as H.
    unfold fetchEvents in Hfetch. by rewrite Hfetch in H.
Qed.


End Run.



(** X14.  In every run of the process one request is in flight at a time:
    each request starts when the one before it has settled, and none
    settles before it starts. *)
Theorem one_request_in_flight toISOString MIN_DELAY_MS PAGE_SIZE
    resumeCursor existing script t0 db0 schedule :
  let rs := requests (api (run toISOString MIN_DELAY_MS PAGE_SIZE schedule
                             (start resumeCursor existing script
                                (Api.initial t0) db0))) in
  adjacent sequential rs /\ Forall (fun r => rq_start r <= rq_end r) rs.
Proof.
  pose proof (run_invariant toISOString MIN_DELAY_MS PAGE_SIZE
                (fun st => sequential_ok (api st))
                (step_sequential_ok toISOString MIN_DELAY_MS PAGE_SIZE)
                schedule
                (start resumeCursor existing script (Api.initial t0) db0))
    as H.
  destruct H as (Hadj & Hall & _); [|done].
  split; [apply adjacent_nil|]. split; [constructor | done].
Qed.

End PipelineTiming.

(** ** The queues and the checkpoint of a run *)

Module PipelineQueues.
Import Db Api Pipeline Notions ApiFacts PipelineFacts.

Section Run.

Variable toISOString : Z -> string.
Variable MIN_DELAY_MS : Z.
Variable PAGE_SIZE : Z.

Local Abbreviation step := (step toISOString MIN_DELAY_MS PAGE_SIZE).
Local Abbreviation run := (run toISOString MIN_DELAY_MS PAGE_SIZE).
Local Abbreviation fetcher := (fetcher MIN_DELAY_MS PAGE_SIZE).
Local Abbreviation writer := (writer toISOString).

(** *** What the writer leaves alone *)

Lemma writer_fetching_side f save_fails st :
  fetchQueue (writer f save_fails st) = fetchQueue st
  /\ fetcherAt (writer f save_fails st) = fetcherAt st
  /\ lastCursor (writer f save_fails st) = lastCursor st
  /\ allFetched (writer f save_fails st) = allFetched st
  /\ remote (writer f save_fails st) = remote st
  /\ api (writer f save_fails st) = api st.
Proof.
  unfold Pipeline.writer. destruct (writerAt st) as [|batch|]; [| |done].
  - by destruct (writeQueue st).
  - by destruct (bulkInsertEvents _ _ _ _) as [[[n|] db']|].
Qed.

Lemma writer_upcoming f save_fails st :
  upcoming (writer f save_fails st) = upcoming st.
Proof.
  destruct (writer_fetching_side f save_fails st) as (Hq & Hat & _).
  unfold upcoming. by rewrite Hq, Hat.
Qed.

(** *** The fetch queue *)

Lemma fetcher_queue_inv st : queue_inv st -> queue_inv (fetcher st).
Proof.
  destruct st as [fq wq af lc tot fat wat ap rem d].
  unfold queue_inv, upcoming, Pipeline.fetcher. simpl.
  intros [Hlen Hall].
  destruct fat as [|c|]; [| |done].
  - destruct fq as [|c q]; [by destruct af | done].
  - destruct fq as [|c' q]; [|simpl in Hlen; lia].
    destruct (fetchEvents _ _ _ _ _) as [[o api1] rest].
    destruct o as [res|[c'|status]|];
      rewrite ?message_BadCursor, ?message_RequestFailed; simpl; [| | |done].
    + destruct (_ && _); simpl; split; try lia.
      * intros x Hx. by apply list_elem_of_singleton in Hx.
      * intros x Hx. by apply elem_of_nil in Hx.
    + split; [lia|].
      intros x Hx. by apply list_elem_of_singleton in Hx.
    + destruct c as [s|]; simpl; split; try lia.
      * intros x Hx. apply list_elem_of_singleton in Hx as ->.
        apply Hall. by left.
      * intros x Hx. by apply elem_of_nil in Hx.
Qed.

Lemma step_queue_inv st a : queue_inv st -> queue_inv (step st a).
Proof.
  destruct a as [|f save_fails|ms]; simpl.
  - apply fetcher_queue_inv.
  - unfold queue_inv. rewrite writer_upcoming.
    by destruct (writer_fetching_side f save_fails st) as (_ & _ & -> & _).
  - done.
Qed.

(** *** A request without cursor that is rethrown *)

Lemma fetcher_stalled_inv a rest st status retry_after :
  a_response a = Failure status retry_after ->
  status <> 429 -> status <> 400 -> status <> 504 ->
  stalled_inv (a :: rest) st -> stalled_inv (a :: rest) (fetcher st).
Proof.
  intros Hr H429 H400 H504.
  apply Z.eqb_neq in H429, H400, H504.
  destruct st as [fq wq af lc tot fat wat ap rem d].
  unfold stalled_inv, upcoming, Pipeline.fetcher. simpl.
  intros (-> & Hnd & Hphase).
  destruct fat as [|c|]; [| |done].
  - destruct Hphase as [[-> ->]| ->]; simpl; repeat split; auto.
  - destruct Hphase as [[-> Hup]|Hup]; [|done].
    injection Hup as -> ->.
    unfold fetchEvents. rewrite fetchLoop_cons, Hr, H429, H400, H504.
    rewrite message_RequestFailed. simpl. repeat split; auto.
Qed.

Lemma step_stalled_inv a rest st act status retry_after :
  a_response a = Failure status retry_after ->
  status <> 429 -> status <> 400 -> status <> 504 ->
  stalled_inv (a :: rest) st -> stalled_inv (a :: rest) (step st act).
Proof.
  intros Hr H429 H400 H504. destruct act as [|f save_fails|ms]; simpl.
  - by eapply fetcher_stalled_inv.
  - unfold stalled_inv. rewrite writer_upcoming.
    destruct (writer_fetching_side f save_fails st)
      as (_ & -> & _ & -> & -> & _). done.
  - done.
Qed.

(** *** The cadence of the checkpoint *)

Lemma rem_lt_crosses t n :
  0 <= t -> 0 <= n ->
  (Z.rem (t + n) 5000 <? n) = true <-> crossesMultiple t n.
Proof.
  intros Ht Hn. rewrite Z.ltb_lt, Z.rem_mod_nonneg by lia.
  pose proof (Z.div_mod (t + n) 5000 ltac:(lia)) as Hdm.
  pose proof (Z.mod_pos_bound (t + n) 5000 ltac:(lia)) as Hb.
  split.
  - intros Hlt. exists ((t + n) / 5000). lia.
  - intros [k [Hk1 Hk2]].
    assert (k <= (t + n) / 5000) by (apply Z.div_le_lower_bound; lia).
    lia.
Qed.

End Run.

(** X15.  In every run of the process at most one cursor is waiting to be
    asked for, counting the one in flight, so there is never a second fetch
    to start; and that cursor is the value of [lastCursor], the value every
    checkpoint write saves: the checkpoint names the page to fetch next,
    wherever the writer stands. *)
Theorem one_cursor_waiting toISOString MIN_DELAY_MS PAGE_SIZE
    resumeCursor existing script api0 db0 schedule :
  let st := run toISOString MIN_DELAY_MS PAGE_SIZE schedule
              (start resumeCursor existing script api0 db0) in
  (length (upcoming st) <= 1)%nat
  /\ forall c, c ∈ upcoming st -> c = lastCursor st.
Proof.
  apply (run_invariant toISOString MIN_DELAY_MS PAGE_SIZE queue_inv).
  - apply step_queue_inv.
  - split; [done|]. intros c Hc. by apply list_elem_of_singleton in Hc.
Qed.

(** X17.  No run of the process changes the count of the checkpoint: the
    writer and the final flush call [saveProgress] with a count of 0 only,
    so [total_processed] is at exit what it was at start (0 on a fresh
    database). *)
Theorem checkpoint_count_is_left_alone toISOString MIN_DELAY_MS PAGE_SIZE
    m schedule script api0 db0 code db' api' :
  runIngestion toISOString MIN_DELAY_MS PAGE_SIZE m schedule script api0 db0
  = Some (code, db', api') ->
  checkpointCount db' = checkpointCount db0.
Proof. apply checkpoint_count_never_moves. Qed.

Lemma checkpoint_count_is_left_alone_witness :
  exists code db' api',
    runIngestion Sample.isoAtEpoch 500 1000 no_main_faults
      Sample.onePageSchedule Sample.singlePage
      (Api.initial Sample.startTime) Sample.freshDb = Some (code, db', api')
    /\ checkpointCount db' = 0.
Proof.
  eexists _, _, _. split; [vm_compute; reflexivity|].
  eapply (checkpoint_count_is_left_alone Sample.isoAtEpoch 500 1000
            no_main_faults Sample.onePageSchedule Sample.singlePage
            (Api.initial Sample.startTime) Sample.freshDb).
  vm_compute. reflexivity.
Defined.

(** X18.  When an insert has returned, the writer adds the length of the
    batch to the running total and writes a checkpoint exactly when the
    total has passed a multiple of 5000 with this batch; the write saves
    [lastCursor] with a count of 0, and its failure is ignored. *)
Theorem writer_checkpoints_every_5000
    toISOString f save_fails st batch n db' :
  writerAt st = WAwaitInsert batch ->
  bulkInsertEvents toISOString (events batch) f (db st)
  = Some (Returned n, db') ->
  0 <= total st ->
  let len := Z.of_nat (length (events batch)) in
  let st' := writer toISOString f save_fails st in
  total st' = total st + len
  /\ writerAt st' = WTop
  /\ (crossesMultiple (total st) len ->
      db st' = (saveProgress (lastCursor st) 0 save_fails db').2)
  /\ (~ crossesMultiple (total st) len -> db st' = db').
Proof.
  intros Hat Hins Ht len st'. subst st'. unfold writer.
  rewrite Hat, Hins. cbv zeta. fold len.
  pose proof (rem_lt_crosses (total st) len Ht ltac:(lia))
    as Hiff.
  destruct (Z.rem (total st + len) 5000 <? len); simpl.
  - repeat split; try done. intros Hno. destruct Hno. by apply Hiff.
  - repeat split; try done. intros Hyes. apply Hiff in Hyes. done.
Qed.

Lemma writer_checkpoints_every_5000_witness :
  exists n db',
    bulkInsertEvents Sample.isoAtEpoch (events Sample.abcBatch) no_faults
      (db (insertingAbc 4998)) = Some (Returned n, db')
    /\ let st' := writer Sample.isoAtEpoch no_faults false
                    (insertingAbc 4998) in
       total st' = 5001
       /\ db st' = (saveProgress None 0 false db').2.
Proof.
  eexists _, _. split; [vm_compute; reflexivity|].
  edestruct (writer_checkpoints_every_5000 Sample.isoAtEpoch no_faults false
               (insertingAbc 4998) Sample.abcBatch)
    as (Htot & _ & Hyes & _);
    [reflexivity | vm_compute; reflexivity | simpl; lia |].
  split; [exact Htot|]. apply Hyes. exists 1. simpl. lia.
Defined.

(** X19.  When the process starts without a cursor and its first request
    is answered with a status that [fetchEvents] rethrows, the fetcher
    queues nothing ([cursor !== undefined] fails) and finds its queue empty
    ever after, the writer finds its own empty and [allFetched] false: the
    two coroutines never both return, under any schedule, and the process
    does not exit. *)
Theorem rethrown_first_request_stalls toISOString MIN_DELAY_MS PAGE_SIZE
    existing a rest api0 db0 status retry_after schedule :
  a_response a = Failure status retry_after ->
  status <> 429 -> status <> 400 -> status <> 504 ->
  finished (run toISOString MIN_DELAY_MS PAGE_SIZE schedule
              (start None existing (a :: rest) api0 db0)) = false.
Proof.
  intros Hr H429 H400 H504.
  pose proof (run_invariant toISOString MIN_DELAY_MS PAGE_SIZE
                (stalled_inv (a :: rest))) as H.
  specialize (H (fun st act =>
    step_stalled_inv toISOString MIN_DELAY_MS PAGE_SIZE
      a rest st act status retry_after Hr H429 H400 H504)).
  destruct (H schedule (start None existing (a :: rest) api0 db0))
    as (_ & Hnd & _).
  { unfold stalled_inv, upcoming. simpl. split; [done|]. split; [done|].
    by left. }
  unfold finished. by destruct (fetcherAt _).
Qed.

Lemma rethrown_first_request_stalls_witness :
  finished (run Sample.isoAtEpoch 500 1000 Sample.retrySchedule
              (start None 0
                 (Sample.attempt (Failure 500 None) :: Sample.singlePage)
                 (Api.initial Sample.startTime) Sample.freshDb)) = false.
Proof.
  apply (rethrown_first_request_stalls Sample.isoAtEpoch 500 1000 0
           (Sample.attempt (Failure 500 None)) Sample.singlePage
           (Api.initial Sample.startTime) Sample.freshDb 500 None);
    [reflexivity | lia | lia | lia].
Defined.

End PipelineQueues.

(** ** What a run stores *)

Module PipelineStore.
Import Db Api Pipeline Notions DbFacts ApiFacts PipelineFacts PipelineQueues.

Lemma delivered_later st st' : later st st' -> delivered st' = delivered st.
Proof. intros (Hreq & _). unfold delivered. by rewrite Hreq. Qed.

Lemma elem_of_idsOf id l : id ∈ idsOf l <-> exists e, e ∈ l /\ idOf e = id.
Proof.
  unfold idsOf. rewrite elem_of_list_to_set, list_elem_of_In, in_map_iff.
  split; intros (e & H1 & H2); exists e.
  - split; [by apply list_elem_of_In | done].
  - split; [done | by apply list_elem_of_In].
Qed.

Section Run.

Variable toISOString : Z -> string.
Hypothesis toISOString_plain : forall ms, plain (toISOString ms) = true.
Variable MIN_DELAY_MS : Z.
Variable PAGE_SIZE : Z.

Local Abbreviation step := (step toISOString MIN_DELAY_MS PAGE_SIZE).
Local Abbreviation run := (run toISOString MIN_DELAY_MS PAGE_SIZE).
Local Abbreviation fetcher := (fetcher MIN_DELAY_MS PAGE_SIZE).
Local Abbreviation writer := (writer toISOString).
Local Abbreviation sent := (sent MIN_DELAY_MS).
Local Abbreviation fetchLoop := (fetchLoop MIN_DELAY_MS).

(** *** What a call delivers *)

Lemma sent_delivered cursor limit a st :
  delivered (sent cursor limit a st)
  = delivered st ++ deliveredOf (a_response a).
Proof.
  unfold delivered. rewrite sent_requests, flat_map_app. simpl.
  by rewrite app_nil_r.
Qed.

Lemma retryable_delivers_nothing r : retryable r = true -> deliveredOf r = [].
Proof. by destruct r. Qed.

Lemma fetchLoop_delivered cursor limit retries script st :
  match fetchLoop cursor limit retries script st with
  | (Resolved res, st', _) => delivered st' = delivered st ++ data res
  | (_, st', _) => delivered st' = delivered st
  end.
Proof.
  pose proof (fetchLoop_keeps MIN_DELAY_MS
                (fun s => delivered s = delivered st)
                (fun a s => delivered s
                            = delivered st ++ deliveredOf (a_response a))
                cursor limit) as H.
  specialize (H (fun a s Hs =>
    eq_trans (sent_delivered cursor limit a s)
      (f_equal (fun l => l ++ deliveredOf (a_response a)) Hs))).
  assert (forall a s s', requests s' = requests s ->
            delivered s = delivered st ++ deliveredOf (a_response a) ->
            retryable (a_response a) = true ->
            delivered s' = delivered st) as Hretry.
  { intros a s s' Hreq Hs Ha. unfold delivered at 1. rewrite Hreq.
    fold (delivered s).
    by rewrite Hs, (retryable_delivers_nothing _ Ha), app_nil_r. }
  specialize (H (fun a s ra Hj Ha =>
    Hretry a s (afterCooldown ra a s) eq_refl Hj ltac:(by rewrite Ha))).
  specialize (H (fun a s n Hj Ha =>
    Hretry a s (afterBackoff n a s) eq_refl Hj (transient_retryable _ Ha))).
  specialize (H script retries st eq_refl).
  destruct (fetchLoop cursor limit retries script st) as [[o st'] rest].
  destruct o as [res|e|].
  - destruct H as (a & Hd & Hs). rewrite Hd.
    destruct (a_response a) as [body|status ra|]; simpl in Hs;
      [|by destruct Hs as [[_ ?]|(_ & _ & _ & ?)]|done].
    by injection Hs as ->.
  - destruct H as (a & Hd & Hs). rewrite Hd.
    destruct (a_response a) as [body|status ra|]; simpl in Hs; [done| |done].
    simpl. by rewrite app_nil_r.
  - by destruct H.
Qed.

(** *** Nothing delivered is lost, nothing else is stored *)

(** What a stretch of the fetcher does to the writing side: it hands the
    events of the page it got, if any, to the writer, and touches neither
    the database nor the writer. *)
Lemma fetcher_writing st :
  exists news,
    delivered (api (fetcher st)) = delivered (api st) ++ news
    /\ waiting (fetcher st) = waiting st ++ news
    /\ db (fetcher st) = db st
    /\ writerAt (fetcher st) = writerAt st
    /\ (fetcherAt st = FDone ->
        writeQueue (fetcher st) = writeQueue st
        /\ allFetched (fetcher st) = allFetched st)
    /\ (allFetched (fetcher st) = true ->
        allFetched st = true \/ fetcherAt (fetcher st) = FDone)
    /\ (fetcherAt st = FDone -> fetcherAt (fetcher st) = FDone).
Proof.
  destruct st as [fq wq af lc tot fat wat ap rem d].
  unfold waiting, Pipeline.fetcher. simpl.
  destruct fat as [|c|].
  - exists []. rewrite !app_nil_r.
    destruct fq as [|c q]; [destruct af|]; simpl; repeat split; auto; done.
  - pose proof (fetchLoop_delivered c PAGE_SIZE 0 rem ap) as Hdel.
    unfold fetchEvents.
    destruct (Api.fetchLoop _ _ _ _ _ _) as [[o api1] rest].
    destruct o as [res|[c'|status]|];
      rewrite ?message_BadCursor, ?message_RequestFailed; simpl.
    + exists (data res).
      assert (forall l : list Batch,
                flat_map events
                  (if (0 <? length (data res))%nat
                   then l ++ [{| events := data res;
                                 cursor := nextCursor res |}]
                   else l)
                = flat_map events l ++ data res) as Hpush.
      { intros l. destruct (data res) as [|e es]; simpl.
        - by rewrite app_nil_r.
        - rewrite flat_map_app. simpl. by rewrite app_nil_r. }
      destruct (_ && _); simpl; (split; [done|]);
        (split; [destruct wat; simpl; rewrite Hpush;
                 by rewrite ?List.app_assoc|]);
        repeat split; auto; done.
    + exists []. rewrite !app_nil_r. repeat split; auto; done.
    + exists []. rewrite !app_nil_r. repeat split; auto; done.
    + exists []. rewrite !app_nil_r. repeat split; auto; done.
  - exists []. rewrite !app_nil_r. repeat split; auto.
Qed.

Lemma fetcher_stored_inv db0 st :
  stored_inv db0 st -> stored_inv db0 (fetcher st).
Proof.
  intros (Hcov & Hwait & Hdom & Hdom0 & Haf & Hwd).
  destruct (fetcher_writing st)
    as (news & Hdel & Hw & Hdb & Hwat & Hdone & Haf' & Hkeep).
  unfold stored_inv. rewrite Hdel, Hw, Hdb, Hwat.
  split; [|split; [|split; [|split; [|split]]]].
  - intros e [He|He]%elem_of_app.
    + destruct (Hcov e He) as [?|?]; [by left|]. right.
      apply elem_of_app. by left.
    + right. apply elem_of_app. by right.
  - intros e [He|He]%elem_of_app; apply elem_of_app;
      [left; by apply Hwait | by right].
  - intros id Hid. apply Hdom in Hid.
    apply elem_of_union in Hid as [Hid|Hid]; apply elem_of_union;
      [by left | right].
    apply elem_of_idsOf in Hid as (e & He & <-).
    apply elem_of_idsOf. exists e. split; [|done]. apply elem_of_app. by left.
  - done.
  - intros H. destruct (Haf' H) as [H'|H']; [|done]. by apply Hkeep, Haf.
  - intros H. destruct (Hwd H) as [Hq Ha].
    destruct (Hdone (Haf Ha)) as [-> ->]. done.
Qed.

Lemma saveProgress_events cursor count fails d :
  db_events (saveProgress cursor count fails d).2 = db_events d.
Proof. unfold saveProgress. by destruct fails. Qed.

(** What a stretch of the writer does to the writing side: events leave
    the waiting ones only when their ids are in [events]; rows are never
    lost, and new ids come from waiting events only. *)
Lemma writer_writing f save_fails st :
  exists written : list Event,
    (forall e, e ∈ waiting st <->
               e ∈ written \/ e ∈ waiting (writer f save_fails st))
    /\ (forall e, e ∈ written ->
          is_Some (db_events (db (writer f save_fails st)) !! idOf e))
    /\ dom (db_events (db st))
       ⊆ dom (db_events (db (writer f save_fails st)))
    /\ dom (db_events (db (writer f save_fails st)))
       ⊆ dom (db_events (db st)) ∪ idsOf (waiting st)
    /\ (writerAt (writer f save_fails st) = WDone ->
        (writerAt st = WDone
         /\ writeQueue (writer f save_fails st) = writeQueue st)
        \/ (writeQueue (writer f save_fails st) = []
            /\ allFetched st = true)).
Proof.
  destruct st as [fq wq af lc tot fat wat ap rem d].
  unfold waiting, Pipeline.writer. simpl.
  assert (forall (l : list Event) (d1 : Database),
            (forall e, e ∈ l <-> e ∈ [] \/ e ∈ l)
            /\ (forall e : Event,
                  e ∈ [] -> is_Some (db_events d1 !! idOf e))) as Hnone.
  { intros l d1. split; [intros e; rewrite elem_of_nil; tauto|].
    intros e He. by apply elem_of_nil in He. }
  destruct wat as [|batch|].
  - exists []. destruct wq as [|b q]; [destruct af|]; simpl;
      (split; [apply (proj1 (Hnone _ d))|]); (split; [apply (proj2 (Hnone [] _))|]);
      (split; [done|]); (split; [set_solver|]); intros H; try done.
    right. done.
  - destruct (bulkInsertEvents_spec toISOString toISOString_plain
                (events batch) f d)
      as (r & d' & rows & Hrun & Hev & Hsub & _ & Hret & _).
    rewrite Hrun.
    assert (dom (db_events d) ⊆ dom (db_events d')) as Hmono.
    { rewrite Hev, dom_insert_do_nothing. set_solver. }
    assert (dom (db_events d')
            ⊆ dom (db_events d)
              ∪ idsOf (events batch ++ flat_map events wq)) as Hnew.
    { rewrite Hev, dom_insert_do_nothing. intros id Hid.
      apply elem_of_union in Hid as [Hid|Hid]; apply elem_of_union;
        [by left | right].
      apply elem_of_list_to_set, list_elem_of_In, in_map_iff in Hid
        as (row & <- & Hrow).
      apply list_elem_of_In, Hsub, list_elem_of_In, in_map_iff in Hrow
        as (e & <- & He).
      apply elem_of_idsOf. exists e. split; [|done].
      apply elem_of_app. left. by apply list_elem_of_In. }
    destruct r as [n|]; simpl.
    + destruct (Hret n eq_refl) as [_ ->].
      exists (events batch).
      assert (forall e, e ∈ events batch ->
                        is_Some (db_events d' !! idOf e)) as Hin.
      { intros e He. rewrite Hev.
        apply (insert_do_nothing_covers _ _ (valuesOf toISOString e)).
        apply list_elem_of_In, in_map. by apply list_elem_of_In. }
      destruct (_ <? _); simpl; rewrite ?saveProgress_events;
        (split; [intros e; by rewrite elem_of_app|]);
        (split; [done|]); (split; [done|]); (split; [done|]); done.
    + exists []. split; [apply (proj1 (Hnone _ d))|]. split; [apply (proj2 (Hnone [] _))|].
      split; [done|]. split; [done|]. done.
  - exists []. split; [apply (proj1 (Hnone _ d))|]. split; [apply (proj2 (Hnone [] _))|].
    split; [done|]. split; [set_solver|]. intros _. by left.
Qed.

Lemma writer_stored_inv db0 f save_fails st :
  stored_inv db0 st -> stored_inv db0 (writer f save_fails st).
Proof.
  intros (Hcov & Hwait & Hdom & Hdom0 & Haf & Hwd).
  destruct (writer_writing f save_fails st)
    as (written & Hsplit & Hin & Hmono & Hnew & Hdone).
  destruct (writer_fetching_side toISOString f save_fails st)
    as (_ & Hat & _ & Hall & _ & Hapi).
  unfold stored_inv. rewrite Hapi, Hall, Hat.
  split; [|split; [|split; [|split; [|split]]]].
  - intros e He. destruct (Hcov e He) as [Hs|Hw].
    + left. apply elem_of_dom. apply Hmono. by apply elem_of_dom.
    + apply Hsplit in Hw as [Hw|Hw]; [left; by apply Hin | by right].
  - intros e He. apply Hwait, Hsplit. by right.
  - intros id Hid. apply Hnew in Hid.
    apply elem_of_union in Hid as [Hid|Hid]; [by apply Hdom|].
    apply elem_of_union. right.
    apply elem_of_idsOf in Hid as (e & He & <-).
    apply elem_of_idsOf. exists e. split; [by apply Hwait | done].
  - set_solver.
  - done.
  - intros H. destruct (Hdone H) as [[Hw ->]|[Hq Ha]]; [|done].
    by destruct (Hwd Hw).
Qed.

Lemma step_stored_inv db0 st a :
  stored_inv db0 st -> stored_inv db0 (step st a).
Proof.
  destruct a as [|f save_fails|ms]; simpl.
  - apply fetcher_stored_inv.
  - apply writer_stored_inv.
  - done.
Qed.

End Run.

(** X16.  Nothing the remote delivered is lost and nothing else is stored:
    once both coroutines have returned, the ids in [events] are exactly the
    ids that were there at start and the ids of the events of every page
    the remote delivered, whatever was retried, re-queued or delivered
    twice on the way.  (The first hypothesis is about the runtime:
    [toISOString] emits no tab, newline or backslash.) *)
Theorem delivered_events_are_stored toISOString MIN_DELAY_MS PAGE_SIZE
    resumeCursor existing script t0 db0 schedule :
  (forall ms, plain (toISOString ms) = true) ->
  let st := run toISOString MIN_DELAY_MS PAGE_SIZE schedule
              (start resumeCursor existing script (Api.initial t0) db0) in
  finished st = true ->
  dom (db_events (db st))
  = dom (db_events db0) ∪ idsOf (delivered (api st)).
Proof.
  intros Hp st Hfin.
  pose proof (run_invariant toISOString MIN_DELAY_MS PAGE_SIZE
                (stored_inv db0)
                (step_stored_inv toISOString Hp MIN_DELAY_MS PAGE_SIZE db0)
                schedule
                (start resumeCursor existing script (Api.initial t0) db0))
    as H.
  destruct H as (Hcov & _ & Hdom & Hdom0 & _ & Hwd).
  { unfold stored_inv, waiting, delivered. simpl.
    repeat split; try done; try set_solver. }
  fold st in Hcov, Hdom, Hdom0, Hwd.
  unfold finished in Hfin.
  destruct (fetcherAt st); try done.
  destruct (writerAt st) eqn:Hw; try done.
  destruct (Hwd eq_refl) as [Hq _].
  apply set_eq. intros id. split; [apply Hdom|].
  intros [Hid|Hid]%elem_of_union; [by apply Hdom0|].
  apply elem_of_idsOf in Hid as (e & He & <-).
  destruct (Hcov e He) as [Hs|Hwait]; [by apply elem_of_dom|].
  unfold waiting in Hwait. rewrite Hw, Hq in Hwait.
  by apply elem_of_nil in Hwait.
Qed.

Lemma delivered_events_are_stored_witness :
  let st := run Sample.isoAtEpoch 500 1000 Sample.onePageSchedule
              (start None 0 Sample.singlePage (Api.initial Sample.startTime)
                 Sample.freshDb) in
  finished st = true
  /\ dom (db_events (db st))
     = dom (db_events Sample.freshDb) ∪ idsOf (delivered (api st)).
Proof.
  split; [vm_compute; reflexivity|].
  apply (delivered_events_are_stored Sample.isoAtEpoch 500 1000 None 0
           Sample.singlePage Sample.startTime Sample.freshDb
           Sample.onePageSchedule);
    [intros ms; reflexivity | vm_compute; reflexivity].
Defined.

End PipelineStore.

(** ** A run to its end *)

Module PipelineProgress.
Import Db Api Pipeline Notions DbFacts ApiFacts PipelineFacts.

Section Run.

Variable toISOString : Z -> string.
Hypothesis toISOString_plain : forall ms, plain (toISOString ms) = true.
Variable MIN_DELAY_MS : Z.
Variable PAGE_SIZE : Z.

Local Abbreviation step := (step toISOString MIN_DELAY_MS PAGE_SIZE).
Local Abbreviation run := (run toISOString MIN_DELAY_MS PAGE_SIZE).
Local Abbreviation fetcher := (fetcher MIN_DELAY_MS PAGE_SIZE).
Local Abbreviation writer := (writer toISOString).






End Run.



End PipelineProgress.

(** ** Start and exit of the process *)

Module PipelineResume.
Import Db Api Pipeline Notions DbFacts ApiFacts PipelineFacts ApiMore.

Section Run.

Variable toISOString : Z -> string.
Variable MIN_DELAY_MS : Z.
Variable PAGE_SIZE : Z.

Local Abbreviation step := (step toISOString MIN_DELAY_MS PAGE_SIZE).
Local Abbreviation run := (run toISOString MIN_DELAY_MS PAGE_SIZE).

Lemma step_resume_inv c st a :
  resume_inv c PAGE_SIZE st -> resume_inv c PAGE_SIZE (step st a).
Proof.
  intros [Hlim Hhead]. unfold resume_inv.
  destruct (step_moved toISOString MIN_DELAY_MS PAGE_SIZE st a)
    as [((Hreq & _) & _ & Hup)
       |(cursor & o & api1 & Hat & Hfetch & (Hreq & _) & _ & Hup)].
  - rewrite Hreq, Hup. done.
  - pose proof (fetchEvents_leaves MIN_DELAY_MS cursor PAGE_SIZE
                  (remote st) (api st)) as H.
    rewrite Hfetch in H. destruct H as (news & Hnews & Hsent & Hend).
    rewrite Hreq, Hnews. split.
    + apply Forall_app. split; [done|].
      eapply Forall_impl; [exact Hsent|]. by intros r [_ ?].
    + destruct (requests (api st)) as [|r0 rs] eqn:Hrs; [|done].
      unfold upcoming in Hhead. rewrite Hat in Hhead.
      injection Hhead as -> Hq.
      destruct news as [|r news]; simpl.
      * rewrite Hup.
        destruct o as [res|[c'|status]|].
        -- destruct Hend as (body & (pre & r & Hnil & _) & _).
           by destruct pre.
        -- destruct Hend as (_ & ra & (pre & r & Hnil & _)).
           by destruct pre.
        -- destruct Hend as (_ & _ & _ & ra & (pre & r & Hnil & _)).
           by destruct pre.
        -- by rewrite Hq.
      * apply Forall_cons in Hsent as [[Hc _] _]. done.
Qed.

End Run.



(** X22.  The process takes up where the checkpoint says.  Every request
    of a run asks for [PAGE_SIZE] events, and the first request carries the
    cursor found in [ingestion_state] at start (none when the row is new,
    or its cursor null or empty), whatever the remote answers before and
    after. *)
Theorem first_request_resumes_from_checkpoint
    toISOString MIN_DELAY_MS PAGE_SIZE m script t0 db0 st0 schedule :
  boot m script (Api.initial t0) db0 = inl st0 ->
  let st := run toISOString MIN_DELAY_MS PAGE_SIZE schedule st0 in
  Forall (fun r => rq_limit r = PAGE_SIZE) (requests (api st))
  /\ forall r, head (requests (api st)) = Some r ->
               rq_cursor r = cursorParam (checkpointCursor db0).
Proof.
  intros Hboot st.
  assert (resume_inv (checkpointCursor db0) PAGE_SIZE st0) as H0.
  { unfold boot, initDb, getTotalProcessed, getCursor in Hboot.
    destruct (init_fails m); [done|].
    destruct (total_fails m); [done|].
    destruct (cursor_fails m); [done|].
    injection Hboot as <-. unfold resume_inv, checkpointCursor. simpl.
    split; [done|]. by destruct (db_state db0). }
  destruct (run_invariant toISOString MIN_DELAY_MS PAGE_SIZE
              (resume_inv (checkpointCursor db0) PAGE_SIZE)
              (step_resume_inv toISOString MIN_DELAY_MS PAGE_SIZE _)
              schedule st0 H0) as [Hlim Hhead].
  fold st in Hlim, Hhead. split; [exact Hlim|].
  intros r Hr. destruct (requests (api st)); [done|].
  by injection Hr as <-.
Qed.

Lemma first_request_resumes_from_checkpoint_witness :
  exists r,
    head (requests
            (api (run Sample.isoAtEpoch 500 1000 Sample.onePageSchedule
                    (start (Some "c1") 0 Sample.singlePage
                       (Api.initial Sample.startTime)
                       (log QSelectCursor
                          (log QSelectTotal
                             (log QInitDb Sample.resumedDb)))))))
    = Some r
    /\ rq_cursor r = Some "c1".
Proof.
  eexists. split; [vm_compute; reflexivity|].
  apply (proj2 (first_request_resumes_from_checkpoint Sample.isoAtEpoch
                  500 1000 no_main_faults Sample.singlePage
                  Sample.startTime Sample.resumedDb _
                  Sample.onePageSchedule eq_refl)).
  vm_compute. reflexivity.
Defined.

End PipelineResume.
